(** * Brand-name normalisation for search: [process_brand_for_search]

    A shallow embedding of [brand_processing/process_brands.py] and the
    properties of its normaliser.

    Python strings are sequences of Unicode code points, so a string is a
    list of code points here.  The function leans on three parts of the
    Python library: [str] methods ([lower], [split], [join], [strip]),
    [unicodedata] ([normalize], [combining]) and [re] ([sub], [findall]).
    Their algorithms are written out below; the tables of the Unicode
    Character Database they consult are a parameter ([UnicodeData]). *)

From Stdlib Require Import Strings.Ascii Strings.String.
From Stdlib Require Import NArith ZArith Bool Arith Lia.
From Stdlib Require Import List.
Import ListNotations.

Set Implicit Arguments.

(** ** Code points and strings *)

(** A code point, [0 .. 0x10FFFF]. *)
Definition char := N.

(** A Python [str]. *)
Definition str := list char.

Definition char_eqb (a b : char) : bool := N.eqb a b.

Fixpoint str_eqb (a b : str) : bool :=
  match a, b with
  | [], [] => true
  | x :: a', y :: b' => char_eqb x y && str_eqb a' b'
  | _, _ => false
  end.

(** [x in xs] for a Python set (or list) of strings. *)
Definition str_in (x : str) (xs : list str) : bool := existsb (str_eqb x) xs.

(** Decoding of UTF-8, used only to write string literals the way the
    source file has them. *)
Fixpoint utf8_decode (bs : list N) : str :=
  match bs with
  | [] => []
  | b :: tl =>
    if (b <? 0x80)%N then b :: utf8_decode tl
    else if (b <? 0xE0)%N then
      match tl with
      | b1 :: tl1 => ((b - 0xC0) * 64 + (b1 - 0x80))%N :: utf8_decode tl1
      | _ => []
      end
    else if (b <? 0xF0)%N then
      match tl with
      | b1 :: b2 :: tl2 =>
        ((b - 0xE0) * 4096 + (b1 - 0x80) * 64 + (b2 - 0x80))%N :: utf8_decode tl2
      | _ => []
      end
    else
      match tl with
      | b1 :: b2 :: b3 :: tl3 =>
        ((b - 0xF0) * 262144 + (b1 - 0x80) * 4096 + (b2 - 0x80) * 64 + (b3 - 0x80))%N
          :: utf8_decode tl3
      | _ => []
      end
  end.

(** [py "..."] is the Python string literal ["..."]. *)
Definition py (s : string) : str :=
  utf8_decode (map N_of_ascii (list_ascii_of_string s)).

(** Character classes written as ranges in the patterns of the source. *)
Definition in_range (lo hi c : char) : bool := (lo <=? c)%N && (c <=? hi)%N.
Definition az (c : char) : bool := in_range 97%N 122%N c.          (* [a-z] *)
Definition d09 (c : char) : bool := in_range 48%N 57%N c.          (* [0-9] *)
Definition az09 (c : char) : bool := az c || d09 c.            (* [a-z0-9] *)
Definition dot : char := 46%N.                                 (* . *)
Definition space : char := 32%N.
Definition underscore : char := 95%N.

(** ** The Unicode Character Database *)

(** The per-code-point tables that [str.lower], [unicodedata] and [re]
    read.  They belong to the Python runtime, not to this program, and
    are kept abstract. *)
Record UnicodeData := {
  (** full lower-case mapping ([_PyUnicode_ToLowerFull]), 1 to 3 code points *)
  to_lower_full : char -> str;
  (** property Cased *)
  is_cased : char -> bool;
  (** property Case_Ignorable *)
  is_case_ignorable : char -> bool;
  (** full compatibility decomposition of one code point (the code
      point itself when it has none) *)
  decomposition : char -> str;
  (** canonical combining class, [unicodedata.combining] *)
  combining : char -> N;
  (** [str.isspace] of a one-character string; also [\s] of [re] *)
  isspace : char -> bool;
  (** [str.isalnum] of a one-character string *)
  isalnum : char -> bool;
  (** [str.isdecimal] of a one-character string; also [\d] of [re] *)
  isdecimal : char -> bool
}.

(** ** The library functions the program calls *)

Section Library.

Variable U : UnicodeData.

(** [\w] of [re] on [str] patterns: alphanumeric or underscore. *)
Definition is_word (c : char) : bool := isalnum U c || char_eqb c underscore.

(** *** [str.lower] *)

Fixpoint dropwhile (p : char -> bool) (s : str) : str :=
  match s with
  | c :: tl => if p c then dropwhile p tl else s
  | [] => []
  end.

(** The Final_Sigma condition for a capital sigma; [before] holds the
    characters on its left, nearest first, [after] those on its right. *)
Definition final_sigma (before after : str) : bool :=
  match dropwhile (is_case_ignorable U) before with
  | c :: _ =>
    is_cased U c &&
    match dropwhile (is_case_ignorable U) after with
    | [] => true
    | c' :: _ => negb (is_cased U c')
    end
  | [] => false
  end.

Definition capital_sigma : char := 0x3A3%N.

Definition lower_char (before : str) (c : char) (after : str) : str :=
  if char_eqb c capital_sigma
  then [if final_sigma before after then 0x3C2%N else 0x3C3%N]
  else to_lower_full U c.

Fixpoint lower_from (before s after : str) : str :=
  match s with
  | [] => []
  | c :: tl => lower_char before c (tl ++ after) ++ lower_from (c :: before) tl after
  end.

(** [s.lower()] *)
Definition lower (s : str) : str := lower_from [] s [].

(** *** [unicodedata.normalize('NFKD', s)] *)

(** Canonical ordering: a character of non-zero combining class moves
    left past the characters of greater class; [placed] is the output
    so far, last character first. *)
Fixpoint sift (c : char) (placed : str) : str :=
  match placed with
  | p :: rest =>
    if negb (combining U p =? 0)%N && (combining U c <? combining U p)%N
    then p :: sift c rest
    else c :: placed
  | [] => [c]
  end.

Definition place (placed : str) (c : char) : str :=
  if (combining U c =? 0)%N then c :: placed else sift c placed.

Definition canonical_order (s : str) : str := rev (fold_left place s []).

Definition nfkd (s : str) : str := canonical_order (flat_map (decomposition U) s).

(** [''.join([c for c in s if not unicodedata.combining(c)])] *)
Definition strip_combining (s : str) : str :=
  filter (fun c => (combining U c =? 0)%N) s.

(** *** [str.split], [str.join], [str.strip] *)

(** [s.split()]: [word] is the current word, last character first. *)
Fixpoint split_from (word : str) (s : str) : list str :=
  match s with
  | [] => match word with [] => [] | _ => [rev word] end
  | c :: tl =>
    if isspace U c
    then match word with
         | [] => split_from [] tl
         | _ => rev word :: split_from [] tl
         end
    else split_from (c :: word) tl
  end.

Definition split (s : str) : list str := split_from [] s.

(** [sep.join(ws)] *)
Fixpoint join (sep : str) (ws : list str) : str :=
  match ws with
  | [] => []
  | [w] => w
  | w :: rest => w ++ sep ++ join sep rest
  end.

(** [s.strip()] *)
Definition strip (s : str) : str :=
  rev (dropwhile (isspace U) (rev (dropwhile (isspace U) s))).

End Library.

(** ** Regular expressions, as [re] matches them *)

(** The fragment of the pattern language the program uses.  Character
    classes are predicates on code points; repetition is always of one
    class and greedy. *)
Inductive regex :=
| Cls (p : char -> bool)        (* one character of a class: [a-z], \d, \. *)
| Star (p : char -> bool)       (* p* *)
| Plus (p : char -> bool)       (* p+ *)
| Bnd                           (* \b *)
| Seq (r1 r2 : regex)           (* r1 r2 *)
| Alt (r1 r2 : regex).          (* r1|r2 *)

Definition Lit (c : char) : regex := Cls (char_eqb c).

Section Matching.

(** [\w], which decides the word boundaries. *)
Variable word : char -> bool.

(** Length of the longest prefix of [s] inside the class [p]. *)
Fixpoint run (p : char -> bool) (s : str) : nat :=
  match s with
  | c :: tl => if p c then S (run p tl) else O
  | [] => O
  end.

(** The character on the left of position [n] of [s], when [prev] is on
    the left of [s]. *)
Definition prev_at (prev : option char) (s : str) (n : nat) : option char :=
  last (map Some (firstn n s)) prev.

Definition is_word_opt (c : option char) : bool :=
  match c with Some x => word x | None => false end.

(** [\b]: exactly one of the two neighbours is a word character; the
    ends of the string count as non-word. *)
Definition at_boundary (prev : option char) (s : str) : bool :=
  xorb (is_word_opt prev) (is_word_opt (hd_error s)).

(** [n, n-1, ..., lo] *)
Fixpoint countdown (n lo : nat) : list nat :=
  match n with
  | O => if (lo =? 0)%nat then [O] else []
  | S m => if (lo <=? n)%nat then n :: countdown m lo else []
  end.

(** The backtracking matcher: all the ways [r] matches a prefix of [s],
    as numbers of characters consumed, in the order in which [re] tries
    them.  The match [re] reports is the first one. *)
Fixpoint ends (r : regex) (prev : option char) (s : str) : list nat :=
  match r with
  | Cls p => match s with
             | c :: _ => if p c then [1%nat] else []
             | [] => []
             end
  | Star p => countdown (run p s) 0
  | Plus p => countdown (run p s) 1
  | Bnd => if at_boundary prev s then [O] else []
  | Seq r1 r2 =>
    flat_map (fun n => map (Nat.add n) (ends r2 (prev_at prev s n) (skipn n s)))
             (ends r1 prev s)
  | Alt r1 r2 => ends r1 prev s ++ ends r2 prev s
  end.

Definition match_at (r : regex) (prev : option char) (s : str) : option nat :=
  hd_error (ends r prev s).

(** A left-to-right scan for the non-overlapping matches, as [re.sub]
    and [re.findall] do it: the text is cut into matches and the
    characters between them.  [skip] counts the characters still covered
    by the last match.  None of the patterns below matches the empty
    string, so the special rules of [re] for empty matches never apply
    and an empty match is taken as no match. *)
Inductive piece :=
| Gap (c : char)
| Hit (m : str).

Fixpoint scan (r : regex) (skip : nat) (prev : option char) (s : str) : list piece :=
  match s with
  | [] => []
  | c :: tl =>
    match skip with
    | S k => scan r k (Some c) tl
    | O =>
      match match_at r prev s with
      | Some (S n) => Hit (firstn (S n) s) :: scan r n (Some c) tl
      | _ => Gap c :: scan r O (Some c) tl
      end
    end
  end.

(** [re.sub(r, repl, s)] with a function [repl] of the matched text *)
Definition re_sub (r : regex) (repl : str -> str) (s : str) : str :=
  flat_map (fun pc => match pc with Gap c => [c] | Hit m => repl m end)
           (scan r O None s).

(** [re.findall(r, s)] for a pattern without groups *)
Definition re_findall (r : regex) (s : str) : list str :=
  flat_map (fun pc => match pc with Gap _ => [] | Hit m => [m] end)
           (scan r O None s).

End Matching.

(** ** Python values *)

(** What the truth test [bool(x)] of a value does: it gives a boolean,
    or the method [__bool__] of the value's class raises. *)
Inductive truth_test :=
| Truth (b : bool)
| TruthRaises (exc : string).

(** The values a caller can pass: the built-in ones, and [PyOther], an
    instance of a class of the caller's own that defines [__bool__] and
    nothing else.  The truth test of a built-in value cannot raise; that
    of a [PyOther] does what its [__bool__] does (the truth test of a
    [numpy] array of several elements and of [pandas.NA] raises in this
    way).  The comparison [==] of any of these values with a string
    cannot raise: a [PyOther] has the default comparison, by identity.
    Past the truth test, what can raise is a method call on a value
    that is not a string. *)
#[warnings="-register-all"]
Inductive pyobj :=
| PyNone
| PyBool (b : bool)
| PyInt (z : Z)
| PyStr (s : str)
| PyBytes (bs : list N)
| PyList (xs : list pyobj)
| PyTuple (xs : list pyobj)
| PyOther (test : truth_test).

(** [bool(x)], which [not x] calls *)
Definition truth (x : pyobj) : truth_test :=
  match x with
  | PyNone => Truth false
  | PyBool b => Truth b
  | PyInt z => Truth (negb (Z.eqb z 0))
  | PyStr s => Truth (match s with [] => false | _ => true end)
  | PyBytes bs => Truth (match bs with [] => false | _ => true end)
  | PyList xs => Truth (match xs with [] => false | _ => true end)
  | PyTuple xs => Truth (match xs with [] => false | _ => true end)
  | PyOther test => test
  end.

(** [isinstance(x, str)] *)
Definition isinstance_str (x : pyobj) : bool :=
  match x with PyStr _ => true | _ => false end.

(** [x == lit] for a string literal [lit] *)
Definition eq_str (x : pyobj) (lit : str) : bool :=
  match x with PyStr s => str_eqb s lit | _ => false end.

(** What a call does: it returns a string or raises. *)
Inductive outcome :=
| Returned (s : str)
| Raised (exc : string).

(** ** [process_brand_for_search] *)

Section Normalizer.

Variable U : UnicodeData.

(** [re.compile(r'([a-z]+\.)([0-9]+)|([a-z]\.)([a-z]\.)')] *)
Definition model_pattern : regex :=
  Alt (Seq (Seq (Plus az) (Lit dot)) (Plus d09))
      (Seq (Seq (Cls az) (Lit dot)) (Seq (Cls az) (Lit dot))).

(** [lambda m: m.group(0).replace('.', '')] *)
Definition drop_dots (m : str) : str := filter (fun c => negb (char_eqb c dot)) m.

(** [r'[^\w\s]'] *)
Definition special_pattern : regex :=
  Cls (fun c => negb (is_word U c || isspace U c)).

(** [r'\b[a-z]*\d+[a-z0-9]*\b'] *)
Definition model_number_pattern : regex :=
  Seq Bnd (Seq (Star az) (Seq (Plus (isdecimal U)) (Seq (Star az09) Bnd))).

(** [r'\s+'] *)
Definition spaces_pattern : regex := Plus (isspace U).

(** [r'[^a-z0-9]'] *)
Definition non_alnum_pattern : regex := Cls (fun c => negb (az09 c)).

Definition common_terms : list str := map py
  [ "original"; "collection"; "design"; "limited"; "edition";
    "watches"; "watch"; "classic"; "vintage"; "series"; "type";
    "professional"; "chronograph"; "chronographe"; "automatic";
    "manufacture"; "gmt"; "quartz"; "mechanical"; "reference";
    "ref"; "model"; "special"; "for"; "the"; "and"; "of" ]%string.

Definition preserved_terms : list str := map py
  [ "sport"; "seamaster"; "submariner"; "navitimer"; "royal"; "oak";
    "datograph"; "master"; "control"; "patrimony"; "monaco"; "nautilus";
    "daytona"; "speedmaster"; "calibre"; "cal"; "elegante"; "laureato";
    "cosmograph"; "moonwatch"; "philippe"; "patek"; "breitling"; "rolex";
    "omega"; "tag"; "heuer"; "iwc"; "piguet"; "audemars"; "lange"; "sohne" ]%string.

(** The condition of the loop: keep a word if it is not a common term,
    or is a preserved term, or is a model number. *)
Definition keep_word (common preserved numbers : list str) (word : str) : bool :=
  let word_lower := lower U word in
  negb (str_in word_lower common)
  || str_in word_lower preserved
  || str_in word_lower numbers.

(** The loop that builds [filtered_words]. *)
Fixpoint filter_words (common preserved numbers : list str) (words : list str)
  : list str :=
  match words with
  | [] => []
  | word :: rest =>
    if keep_word common preserved numbers word
    then word :: filter_words common preserved numbers rest
    else filter_words common preserved numbers rest
  end.

(** The text after lower-casing and the removal of accents. *)
Definition unaccented (brand_name : str) : str :=
  strip_combining U (nfkd U (lower U brand_name)).

(** The text the words are taken from: model numbers normalised and
    special characters replaced with spaces. *)
Definition cleaned (brand_name : str) : str :=
  let result := unaccented brand_name in
  let result := re_sub (is_word U) model_pattern drop_dots result in
  re_sub (is_word U) special_pattern (fun _ => [space]) result.

Definition model_numbers (result : str) : list str :=
  re_findall (is_word U) model_number_pattern result.

Definition filtered_words (result : str) : list str :=
  filter_words common_terms preserved_terms (model_numbers result) (split U result).

(** The body of the function from the first assignment on, for a
    non-empty string. *)
Definition process_str (brand_name : str) (mode : pyobj) : str :=
  let result := cleaned brand_name in
  let result := join [space] (filtered_words result) in
  let result := strip U (re_sub (is_word U) spaces_pattern (fun _ => [space]) result) in
  if eq_str mode (py "alphanumeric")
  then re_sub (is_word U) non_alnum_pattern (fun _ => []) result
  else result.

(** The function.  The guard evaluates [not brand_name] first: an
    exception of the truth test leaves the function; [isinstance] is
    evaluated only for a true value.  Past the guard the body calls
    [brand_name.lower()] and [unicodedata.normalize]: a string goes
    through them, bytes have the method [lower] but are rejected by
    [normalize], and the other values have no method [lower]. *)
Definition process_brand_for_search (brand_name mode : pyobj) : outcome :=
  match truth brand_name with
  | TruthRaises exc => Raised exc
  | Truth b =>
    if negb b || negb (isinstance_str brand_name)
    then Returned []
    else match brand_name with
         | PyStr s => Returned (process_str s mode)
         | PyBytes _ => Raised "TypeError"
         | _ => Raised "AttributeError"
         end
  end.

End Normalizer.

(** ** What is assumed of the Unicode Character Database *)

(** The code points whose table entries are spelled out: Basic Latin and
    the few others that the examples use. *)
Definition listed (c : char) : bool :=
  (c <? 128)%N
  || existsb (N.eqb c) [0xC9; 0xD6; 0xDF; 0xE9; 0xF6; 0x301; 0x308; 0x2122]%N.

(** The entries of the listed code points, from the Unicode Character
    Database.  Every other code point is given the entry of an
    unassigned one (no case, no decomposition, class 0, neither space
    nor alphanumeric), so that the record is a database in which only
    the listed characters exist. *)
Definition ucd_excerpt : UnicodeData := {|
  to_lower_full c :=
    if in_range 65 90 c then [c + 32]
    else if c =? 0xC9 then [0xE9]          (* É -> é *)
    else if c =? 0xD6 then [0xF6]          (* Ö -> ö *)
    else [c];
  is_cased c :=
    in_range 65 90 c || in_range 97 122 c
    || existsb (N.eqb c) [0xC9; 0xD6; 0xDF; 0xE9; 0xF6];
  is_case_ignorable c :=
    existsb (N.eqb c) [0x27; 0x2E; 0x3A; 0x5E; 0x60; 0x301; 0x308];
  decomposition c :=
    if c =? 0xC9 then [0x45; 0x301]        (* É = E + acute *)
    else if c =? 0xD6 then [0x4F; 0x308]   (* Ö = O + diaeresis *)
    else if c =? 0xE9 then [0x65; 0x301]   (* é = e + acute *)
    else if c =? 0xF6 then [0x6F; 0x308]   (* ö = o + diaeresis *)
    else if c =? 0x2122 then [0x54; 0x4D]  (* trade mark sign = T M *)
    else [c];
  combining c := if (c =? 0x301) || (c =? 0x308) then 230 else 0;
  isspace c := in_range 9 13 c || in_range 28 32 c;
  isalnum c :=
    in_range 48 57 c || in_range 65 90 c || in_range 97 122 c
    || existsb (N.eqb c) [0xC9; 0xD6; 0xDF; 0xE9; 0xF6];
  isdecimal c := in_range 48 57 c
|}%N.

(** The facts about the database that the proofs rely on. *)
Record UnicodeFacts (U : UnicodeData) : Prop := {
  (** the listed code points have the entries of the excerpt *)
  listed_lower : forall c, listed c = true ->
    to_lower_full U c = to_lower_full ucd_excerpt c;
  listed_decomposition : forall c, listed c = true ->
    decomposition U c = decomposition ucd_excerpt c;
  listed_combining : forall c, listed c = true ->
    combining U c = combining ucd_excerpt c;
  listed_isspace : forall c, listed c = true ->
    isspace U c = isspace ucd_excerpt c;
  listed_isalnum : forall c, listed c = true ->
    isalnum U c = isalnum ucd_excerpt c;
  listed_isdecimal : forall c, listed c = true ->
    isdecimal U c = isdecimal ucd_excerpt c;
  (** a white-space character has no case mapping, and is not sigma *)
  space_lower : forall c, isspace U c = true ->
    to_lower_full U c = [c] /\ c <> capital_sigma;
  (** a white-space character decomposes into one white-space character,
      which is not a combining mark *)
  space_decomposition : forall c, isspace U c = true ->
    exists c', decomposition U c = [c'] /\ isspace U c' = true
               /\ combining U c' = 0%N
}.

(** The string a call returns. *)
Definition returned (o : outcome) : str :=
  match o with Returned s => s | Raised _ => [] end.

(** [normalize U s mode]: the result of the function on the string [s]
    with the mode given as a string. *)
Definition normalize (U : UnicodeData) (s mode : str) : str :=
  returned (process_brand_for_search U (PyStr s) (PyStr mode)).


(** The standard-mode result on a string: the filtered words joined by
    single spaces, white space collapsed and trimmed. *)
Definition standard_result (U : UnicodeData) (s : str) : str :=
  strip U (re_sub (is_word U) (spaces_pattern U) (fun _ => [space])
                  (join [space] (filtered_words U (cleaned U s)))).



(** The text of a piece. *)
Definition piece_text (pc : piece) : str :=
  match pc with Gap c => [c] | Hit m => m end.

(** [accepts q r]: every character class of [r] lies inside [q]. *)
Fixpoint accepts (q : char -> bool) (r : regex) : Prop :=
  match r with
  | Cls p | Star p | Plus p => forall c, p c = true -> q c = true
  | Bnd => True
  | Seq r1 r2 | Alt r1 r2 => accepts q r1 /\ accepts q r2
  end.

(** [needs q r]: every match of [r] takes a character of [q]. *)
Fixpoint needs (q : char -> bool) (r : regex) : Prop :=
  match r with
  | Cls p | Plus p => forall c, p c = true -> q c = true
  | Star _ | Bnd => False
  | Seq r1 r2 => needs q r1 \/ needs q r2
  | Alt r1 r2 => needs q r1 /\ needs q r2
  end.

(** [similar P r r']: the patterns [r] and [r'] have the same shape and
    their classes agree on the characters of [P]. *)
Fixpoint similar (P : char -> Prop) (r r' : regex) : Prop :=
  match r, r' with
  | Cls p, Cls p' | Star p, Star p' | Plus p, Plus p' => forall c, P c -> p c = p' c
  | Bnd, Bnd => True
  | Seq a b, Seq a' b' | Alt a b, Alt a' b' => similar P a a' /\ similar P b b'
  | _, _ => False
  end.

(** [P] holds of the character on the left, if there is one. *)
Definition P_opt (P : char -> Prop) (prev : option char) : Prop :=
  match prev with Some c => P c | None => True end.

(** Runs of a class replaced by [r]: what [re.sub] does with a pattern
    [p+] and a constant replacement.  [in_run] tells that the character
    on the left was in the class. *)
Fixpoint squeeze (p : char -> bool) (r : str) (in_run : bool) (s : str) : str :=
  match s with
  | [] => []
  | c :: tl =>
    if p c
    then (if in_run then squeeze p r true tl else r ++ squeeze p r true tl)
    else c :: squeeze p r false tl
  end.

(** A word as [split] yields it: not empty and without white space. *)
Definition clean_word (U : UnicodeData) (w : str) : Prop :=
  w <> [] /\ Forall (fun c => isspace U c = false) w.

(** A text that does not start with white space. *)
Definition tight (U : UnicodeData) (s : str) : Prop :=
  match s with [] => True | c :: _ => isspace U c = false end.

(** A lower-case or caseless Basic Latin character. *)
Definition plain (c : char) : bool := (c <? 128)%N && negb (in_range 65%N 90%N c).

(** A text that is empty or starts with white space. *)
Definition fence (U : UnicodeData) (s : str) : Prop :=
  match s with [] => True | c :: _ => isspace U c = true end.

(** [w] stands in [s] as a word of its own: between white space or the
    ends of the text. *)
Definition word_in (U : UnicodeData) (w s : str) : Prop :=
  exists pre post,
    s = pre ++ w ++ post /\ clean_word U w /\ fence U (rev pre) /\ fence U post.

(** The text [re.sub] builds from the pieces of a scan. *)
Definition emit (repl : str -> str) (pieces : list piece) : str :=
  flat_map (fun pc => match pc with Gap c => [c] | Hit m => repl m end) pieces.

(** The characters that the pattern of the abbreviations can take. *)
Definition abbreviation_char (c : char) : bool := az c || char_eqb dot c || d09 c.

(** Decomposition followed by the removal of the combining marks. *)
Definition unmark (U : UnicodeData) (s : str) : str :=
  strip_combining U (flat_map (decomposition U) s).

(** What is assumed besides, where decimal digits and word boundaries
    matter: a decimal digit is alphanumeric and has no case mapping, and
    a white-space character is not a word character. *)
Record DigitFacts (U : UnicodeData) : Prop := {
  decimal_alnum : forall c, isdecimal U c = true -> isalnum U c = true;
  decimal_lower : forall c, isdecimal U c = true ->
    to_lower_full U c = [c] /\ c <> capital_sigma;
  space_not_word : forall c, isspace U c = true -> is_word U c = false
}.

(** A word that the model-number pattern matches as a whole: lower-case
    letters, then at least one decimal digit, then characters of
    [a-z0-9]. *)
Definition model_number_word (U : UnicodeData) (w : str) : Prop :=
  exists L D R,
    w = L ++ D ++ R
    /\ Forall (fun c => az c = true) L
    /\ D <> [] /\ Forall (fun c => isdecimal U c = true) D
    /\ Forall (fun c => az09 c = true) R.

(** The characters that the model-number pattern can take. *)
Definition model_number_char (U : UnicodeData) (c : char) : bool :=
  az c || isdecimal U c || az09 c.

(** A lower-case Basic Latin word character: [a-z0-9_]. *)
Definition word_char (c : char) : bool := az09 c || char_eqb c underscore.

(** The first test of the loop alone: the lower-case form of the word is
    not a common term. *)
Definition not_common (U : UnicodeData) (w : str) : bool :=
  negb (str_in (lower U w) common_terms).

(** ** The demonstration under [if __name__ == "__main__"] *)





(** * Properties *)

(** ** Equality of strings *)

Lemma char_eqb_eq (a b : char) : char_eqb a b = true <-> a = b.
Proof. apply N.eqb_eq. Qed.

Lemma str_eqb_eq (a b : str) : str_eqb a b = true <-> a = b.
Proof.
  revert b; induction a as [|x a IH]; intros [|y b]; simpl;
    try (split; intro; discriminate || reflexivity).
  rewrite andb_true_iff, char_eqb_eq, IH.
  split; [intros [-> ->]; reflexivity | intros [= -> ->]; auto].
Qed.

Lemma str_eqb_refl (a : str) : str_eqb a a = true.
Proof. apply str_eqb_eq; reflexivity. Qed.

Lemma str_in_In (x : str) (xs : list str) : str_in x xs = true <-> In x xs.
Proof.
  unfold str_in; rewrite existsb_exists; split.
  - intros (y & Hy & E); apply str_eqb_eq in E; subst; assumption.
  - intros H; exists x; split; [assumption | apply str_eqb_refl].
Qed.

Lemma eq_str_true (x : pyobj) (lit : str) : eq_str x lit = true <-> x = PyStr lit.
Proof.
  destruct x; simpl; try (split; intro; discriminate).
  rewrite str_eqb_eq; split; [intros ->; reflexivity | intros [= ->]; reflexivity].
Qed.

(** ** Scanning with a one-character pattern *)

Section ScanClass.

Variable word : char -> bool.
Variable p : char -> bool.

Lemma match_at_Cls prev c tl :
  match_at word (Cls p) prev (c :: tl) = if p c then Some 1%nat else None.
Proof. unfold match_at; simpl; destruct (p c); reflexivity. Qed.

Lemma scan_Cls s : forall prev,
  scan word (Cls p) 0 prev s = map (fun c => if p c then Hit [c] else Gap c) s.
Proof.
  induction s as [|c tl IH]; intros prev; [reflexivity|].
  cbn [scan map]; rewrite match_at_Cls.
  destruct (p c); cbn [firstn]; rewrite IH; reflexivity.
Qed.

Lemma re_sub_Cls repl s :
  re_sub word (Cls p) repl s = flat_map (fun c => if p c then repl [c] else [c]) s.
Proof.
  unfold re_sub; rewrite scan_Cls.
  induction s as [|c tl IH]; [reflexivity|].
  cbn [map flat_map]; rewrite IH; destruct (p c); reflexivity.
Qed.

End ScanClass.

(** Deleting the characters of a class is a filter. *)
Lemma re_sub_delete word p s :
  re_sub word (Cls (fun c => negb (p c))) (fun _ => []) s = filter p s.
Proof.
  rewrite re_sub_Cls; induction s as [|c tl IH]; [reflexivity|].
  cbn [flat_map filter]; rewrite IH; destruct (p c); reflexivity.
Qed.

(** Replacing the characters of a class by one character is a map. *)
Lemma re_sub_replace word p r s :
  re_sub word (Cls p) (fun _ => [r]) s = map (fun c => if p c then r else c) s.
Proof.
  rewrite re_sub_Cls; induction s as [|c tl IH]; [reflexivity|].
  cbn [flat_map map]; rewrite IH; destruct (p c); reflexivity.
Qed.

(** ** The shape of the function *)

Section Shape.

Variable U : UnicodeData.

Lemma standard_result_nil : standard_result U [] = [].
Proof. reflexivity. Qed.

Lemma process_str_standard s mode :
  eq_str mode (py "alphanumeric") = false ->
  process_str U s mode = standard_result U s.
Proof. unfold process_str, standard_result; intros ->; reflexivity. Qed.

Lemma process_str_alphanumeric s :
  process_str U s (PyStr (py "alphanumeric")) = filter az09 (standard_result U s).
Proof.
  unfold process_str, standard_result.
  replace (eq_str (PyStr (py "alphanumeric")) (py "alphanumeric")) with true
    by reflexivity.
  unfold non_alnum_pattern; apply re_sub_delete.
Qed.

Lemma process_brand_str s mode :
  process_brand_for_search U (PyStr s) mode
  = Returned (match s with [] => [] | _ => process_str U s mode end).
Proof. destruct s; reflexivity. Qed.

Lemma normalize_standard s : normalize U s (py "standard") = standard_result U s.
Proof.
  unfold normalize; rewrite process_brand_str; destruct s; [reflexivity|].
  cbn [returned]; apply process_str_standard; reflexivity.
Qed.

Lemma normalize_alphanumeric s :
  normalize U s (py "alphanumeric") = filter az09 (standard_result U s).
Proof.
  unfold normalize; rewrite process_brand_str; destruct s; [reflexivity|].
  cbn [returned]; apply process_str_alphanumeric.
Qed.

End Shape.

(** ** Invalid input, and the mode argument *)




(** C9: a mode other than "alphanumeric", known or not, gives the
    result of the "standard" mode. *)
Theorem other_mode_is_standard (U : UnicodeData) (brand_name mode : pyobj) :
  mode <> PyStr (py "alphanumeric") ->
  process_brand_for_search U brand_name mode
  = process_brand_for_search U brand_name (PyStr (py "standard")).
Proof.
  intros Hm.
  assert (E : eq_str mode (py "alphanumeric") = false).
  { destruct (eq_str mode (py "alphanumeric")) eqn:E; [|reflexivity].
    apply eq_str_true in E; contradiction. }
  unfold process_brand_for_search.
  destruct (truth brand_name) as [b|exc]; [|reflexivity].
  destruct (negb b || negb (isinstance_str brand_name)); [reflexivity|].
  destruct brand_name; try reflexivity.
  rewrite !process_str_standard by (assumption || reflexivity); reflexivity.
Qed.

Lemma other_mode_is_standard_witness :
  process_brand_for_search ucd_excerpt (PyStr (py "Tag Heuer")) (PyStr (py "xyz"))
  = process_brand_for_search ucd_excerpt (PyStr (py "Tag Heuer")) (PyStr (py "standard")).
Proof.
  apply (@other_mode_is_standard ucd_excerpt (PyStr (py "Tag Heuer")) (PyStr (py "xyz"))).
  intros H; apply eq_str_true in H; vm_compute in H; discriminate.
Defined.

(** C4: the alphanumeric-mode result has only characters of [a-z0-9];
    in particular it has no space. *)
Theorem alphanumeric_result_charset (U : UnicodeData) (s : str) :
  Forall (fun c => az09 c = true) (normalize U s (py "alphanumeric"))
  /\ ~ In space (normalize U s (py "alphanumeric")).
Proof.
  rewrite normalize_alphanumeric.
  assert (H : Forall (fun c => az09 c = true) (filter az09 (standard_result U s))).
  { apply Forall_forall; intros c Hc; apply filter_In in Hc; tauto. }
  split; [exact H|].
  intros Hin; rewrite Forall_forall in H; apply H in Hin; discriminate.
Qed.

(** C7: the alphanumeric-mode result is the standard-mode result with
    the characters outside [a-z0-9] removed, and the standard-mode
    result is the joined words after the collapse of white space,
    unchanged. *)
Theorem alphanumeric_from_standard (U : UnicodeData) (s : str) :
  normalize U s (py "alphanumeric") = filter az09 (normalize U s (py "standard"))
  /\ normalize U s (py "alphanumeric")
     = re_sub (is_word U) non_alnum_pattern (fun _ => []) (normalize U s (py "standard"))
  /\ normalize U s (py "standard")
     = strip U (re_sub (is_word U) (spaces_pattern U) (fun _ => [space])
                       (join [space] (filtered_words U (cleaned U s)))).
Proof.
  rewrite normalize_alphanumeric, normalize_standard.
  unfold non_alnum_pattern; rewrite re_sub_delete.
  repeat split; reflexivity.
Qed.

(** ** The loop over the words *)

Section Loop.

Variable U : UnicodeData.
Variables common preserved numbers : list str.

Lemma filter_words_In words word :
  In word (filter_words U common preserved numbers words)
  <-> In word words /\ keep_word U common preserved numbers word = true.
Proof.
  induction words as [|w rest IH]; simpl; [tauto|].
  destruct (keep_word U common preserved numbers w) eqn:K; simpl; rewrite IH.
  - split; [intros [->|[? ?]]; auto | intros [[->|?] ?]; auto].
  - split; [intros [? ?]; auto | intros [[->|?] ?]; auto; congruence].
Qed.

Lemma keep_word_cases word :
  keep_word U common preserved numbers word = true
  <-> str_in (lower U word) common = false
      \/ str_in (lower U word) preserved = true
      \/ str_in (lower U word) numbers = true.
Proof.
  unfold keep_word; cbv zeta.
  rewrite !orb_true_iff, negb_true_iff; tauto.
Qed.

End Loop.

(** In the function itself: a word of the cleaned text that is among
    its model numbers is kept. *)
Lemma model_number_word_kept (U : UnicodeData) (result word : str) :
  In word (split U result) ->
  In (lower U word) (model_numbers U result) ->
  In word (filtered_words U result).
Proof.
  intros Hw Hn; apply filter_words_In; split; [assumption|].
  apply keep_word_cases; right; right; apply str_in_In; assumption.
Qed.

(** ** Lower-casing and the removal of accents *)

Section Unaccent.

Variable U : UnicodeData.

(** Away from capital sigma, lower-casing maps each character by the
    table, whatever surrounds it. *)
Lemma lower_from_no_sigma s : forall before after,
  Forall (fun c => c <> capital_sigma) s ->
  lower_from U before s after = flat_map (to_lower_full U) s.
Proof.
  induction s as [|c tl IH]; intros before after H; [reflexivity|].
  inversion H as [|? ? Hc Htl]; subst.
  cbn [lower_from flat_map]; rewrite IH by assumption.
  unfold lower_char.
  destruct (char_eqb c capital_sigma) eqn:E; [|reflexivity].
  apply char_eqb_eq in E; contradiction.
Qed.

Lemma lower_no_sigma s :
  Forall (fun c => c <> capital_sigma) s ->
  lower U s = flat_map (to_lower_full U) s.
Proof. apply lower_from_no_sigma. Qed.

(** Lower-casing works piece by piece: the pieces only see each other
    as context. *)
Lemma lower_from_app s1 : forall s2 before after,
  lower_from U before (s1 ++ s2) after
  = lower_from U before s1 (s2 ++ after) ++ lower_from U (rev s1 ++ before) s2 after.
Proof.
  induction s1 as [|c tl IH]; intros s2 before after; [reflexivity|].
  cbn [app lower_from rev]; rewrite IH, <- !app_assoc; reflexivity.
Qed.

Local Abbreviation starter := (fun c => (combining U c =? 0)%N).

Lemma sift_starters c placed :
  (combining U c =? 0)%N = false ->
  filter starter (sift U c placed) = filter starter placed.
Proof.
  intros Hc; induction placed as [|p rest IH]; cbn [sift filter].
  - rewrite Hc; reflexivity.
  - destruct (negb (combining U p =? 0)%N && (combining U c <? combining U p)%N) eqn:E.
    + cbn [filter]; rewrite IH; reflexivity.
    + cbn [filter]; rewrite Hc; reflexivity.
Qed.

Lemma place_starters placed c :
  filter starter (place U placed c) = filter starter (c :: placed).
Proof.
  unfold place; destruct (combining U c =? 0)%N eqn:Hc; [reflexivity|].
  rewrite sift_starters by assumption; cbn [filter]; rewrite Hc; reflexivity.
Qed.

Lemma fold_place_starters s : forall placed,
  filter starter (fold_left (place U) s placed)
  = rev (filter starter s) ++ filter starter placed.
Proof.
  induction s as [|c tl IH]; intros placed; [reflexivity|].
  cbn [fold_left]; rewrite IH, place_starters.
  cbn [filter]; destruct (combining U c =? 0)%N; [|reflexivity].
  cbn [rev]; rewrite <- app_assoc; reflexivity.
Qed.

(** Canonical ordering only moves combining marks, which are then
    dropped. *)
Lemma strip_combining_canonical_order s :
  strip_combining U (canonical_order U s) = strip_combining U s.
Proof.
  unfold strip_combining, canonical_order.
  rewrite filter_rev, fold_place_starters, app_nil_r, rev_involutive; reflexivity.
Qed.

Lemma unaccented_eq s :
  unaccented U s = strip_combining U (flat_map (decomposition U) (lower U s)).
Proof. unfold unaccented, nfkd; apply strip_combining_canonical_order. Qed.

End Unaccent.

(** ** The matcher *)

Lemma firstn_plus (A : Type) (n m : nat) (l : list A) :
  firstn (n + m) l = firstn n l ++ firstn m (skipn n l).
Proof.
  revert l; induction n as [|n IH]; intros [|x l]; cbn [Nat.add firstn skipn app];
    try reflexivity.
  - rewrite firstn_nil; reflexivity.
  - rewrite IH; reflexivity.
Qed.

Lemma last_cons (A : Type) (x : A) (l : list A) (d : A) :
  last (x :: l) d = last l x.
Proof.
  revert x d; induction l as [|y l IH]; intros x d; [reflexivity|].
  change (last (x :: y :: l) d) with (last (y :: l) d).
  rewrite !IH; reflexivity.
Qed.

Lemma countdown_In n : forall lo k, In k (countdown n lo) <-> (lo <= k <= n)%nat.
Proof.
  induction n as [|n IH]; intros lo k; cbn [countdown].
  - destruct (Nat.eqb_spec lo 0); simpl; lia.
  - destruct (Nat.leb_spec lo (S n)); cbn [In]; [rewrite IH|]; lia.
Qed.

Lemma run_firstn p s : forall n,
  (n <= run p s)%nat ->
  (n <= length s)%nat /\ Forall (fun c => p c = true) (firstn n s).
Proof.
  induction s as [|c tl IH]; intros n Hn; cbn [run] in Hn.
  - assert (n = O) by lia; subst; split; [simpl; lia | constructor].
  - destruct n as [|n]; [split; [simpl; lia | constructor]|].
    destruct (p c) eqn:Hc; [|lia].
    destruct (IH n) as [Hl Hf]; [lia|].
    split; [simpl; lia | cbn [firstn]; constructor; assumption].
Qed.

Lemma Forall_firstn_skipn (A : Type) (P : A -> Prop) (n : nat) (l : list A) :
  Forall P l -> Forall P (firstn n l) /\ Forall P (skipn n l).
Proof.
  intros H; rewrite <- (firstn_skipn n l) in H; apply Forall_app in H; exact H.
Qed.

Lemma Forall_firstn (A : Type) (P : A -> Prop) (n : nat) (l : list A) :
  Forall P l -> Forall P (firstn n l).
Proof. intros H; apply (Forall_firstn_skipn n H). Qed.

Lemma Forall_skipn (A : Type) (P : A -> Prop) (n : nat) (l : list A) :
  Forall P l -> Forall P (skipn n l).
Proof. intros H; apply (Forall_firstn_skipn n H). Qed.

Lemma In_firstn (A : Type) (x : A) (n : nat) (l : list A) :
  In x (firstn n l) -> In x l.
Proof.
  intros H; rewrite <- (firstn_skipn n l); apply in_or_app; left; exact H.
Qed.

Section Matcher.

Variable word : char -> bool.

Lemma prev_at_0 prev s : prev_at prev s 0 = prev.
Proof. reflexivity. Qed.

Lemma prev_at_S prev c tl n : prev_at prev (c :: tl) (S n) = prev_at (Some c) tl n.
Proof. unfold prev_at; cbn [firstn map]; apply last_cons. Qed.

(** A match lies inside the text and is made of accepted characters. *)
Lemma ends_accepts q r : forall prev s n,
  accepts q r ->
  In n (ends word r prev s) ->
  (n <= length s)%nat /\ Forall (fun c => q c = true) (firstn n s).
Proof.
  induction r as [p | p | p | | r1 IH1 r2 IH2 | r1 IH1 r2 IH2];
    intros prev s n Hq Hn; cbn [ends accepts] in *.
  - destruct s as [|c tl]; [contradiction|].
    destruct (p c) eqn:Hc; [|contradiction].
    destruct Hn as [<-|[]]; split; [simpl; lia|].
    cbn [firstn]; constructor; [auto | constructor].
  - apply countdown_In in Hn.
    destruct (@run_firstn p s n) as [Hl Hf]; [lia|].
    split; [assumption|]. eapply Forall_impl; [|exact Hf]; auto.
  - apply countdown_In in Hn.
    destruct (@run_firstn p s n) as [Hl Hf]; [lia|].
    split; [assumption|]. eapply Forall_impl; [|exact Hf]; auto.
  - destruct (at_boundary word prev s); [|contradiction].
    destruct Hn as [<-|[]]; split; [lia | constructor].
  - apply in_flat_map in Hn; destruct Hn as (n1 & H1 & Hn).
    apply in_map_iff in Hn; destruct Hn as (n2 & <- & H2).
    destruct Hq as [Hq1 Hq2].
    destruct (IH1 _ _ _ Hq1 H1) as [Hl1 Hf1].
    destruct (IH2 _ _ _ Hq2 H2) as [Hl2 Hf2].
    rewrite length_skipn in Hl2.
    split; [lia|]. rewrite firstn_plus; apply Forall_app; split; assumption.
  - destruct Hq as [Hq1 Hq2].
    apply in_app_or in Hn; destruct Hn as [Hn|Hn]; eauto.
Qed.

Lemma ends_bound r prev s n : In n (ends word r prev s) -> (n <= length s)%nat.
Proof.
  intros Hn; apply (@ends_accepts (fun _ => true) r prev s n); [|assumption].
  clear; induction r; cbn [accepts]; auto.
Qed.

(** A match of a pattern that needs a character of [q] has one. *)
Lemma ends_needs q r : forall prev s n,
  needs q r ->
  In n (ends word r prev s) ->
  Exists (fun c => q c = true) (firstn n s).
Proof.
  induction r as [p | p | p | | r1 IH1 r2 IH2 | r1 IH1 r2 IH2];
    intros prev s n Hq Hn; cbn [ends needs] in *; try contradiction.
  - destruct s as [|c tl]; [contradiction|].
    destruct (p c) eqn:Hc; [|contradiction].
    destruct Hn as [<-|[]]; cbn [firstn]; constructor; auto.
  - apply countdown_In in Hn.
    destruct s as [|c tl]; cbn [run] in Hn; [lia|].
    destruct (p c) eqn:Hc; [|lia].
    destruct n as [|n]; [lia|]; cbn [firstn]; constructor; auto.
  - apply in_flat_map in Hn; destruct Hn as (n1 & H1 & Hn).
    apply in_map_iff in Hn; destruct Hn as (n2 & <- & H2).
    rewrite firstn_plus; apply Exists_app.
    destruct Hq as [Hq|Hq]; [left|right]; eauto.
  - destruct Hq as [Hq1 Hq2].
    apply in_app_or in Hn; destruct Hn as [Hn|Hn]; eauto.
Qed.

Lemma match_at_In r prev s n : match_at word r prev s = Some n -> In n (ends word r prev s).
Proof.
  unfold match_at; destruct (ends word r prev s); [discriminate|].
  intros [= ->]; left; reflexivity.
Qed.

(** *** The scan *)

Lemma scan_skip r k : forall prev s,
  scan word r k prev s = scan word r 0 (prev_at prev s k) (skipn k s).
Proof.
  induction k as [|k IH]; intros prev s; [reflexivity|].
  destruct s as [|c tl]; [reflexivity|].
  cbn [scan skipn]; rewrite IH, prev_at_S; reflexivity.
Qed.

(** The scan, one step at a time. *)
Lemma scan_step r prev c tl :
  scan word r 0 prev (c :: tl)
  = match match_at word r prev (c :: tl) with
    | Some (S n) =>
      Hit (firstn (S n) (c :: tl))
        :: scan word r 0 (prev_at prev (c :: tl) (S n)) (skipn (S n) (c :: tl))
    | _ => Gap c :: scan word r 0 (Some c) tl
    end.
Proof.
  cbn [scan]; destruct (match_at word r prev (c :: tl)) as [[|n]|]; try reflexivity.
  rewrite scan_skip, prev_at_S; reflexivity.
Qed.

(** What the pieces of a scan are made of. *)
Lemma scan_pieces (P : char -> Prop) r s : forall k prev,
  Forall P s ->
  Forall (fun pc => Forall P (piece_text pc)) (scan word r k prev s).
Proof.
  induction s as [|c tl IH]; intros k prev H; [constructor|].
  inversion H as [|? ? Hc Htl]; subst.
  cbn [scan]; destruct k as [|k]; [|auto].
  destruct (match_at word r prev (c :: tl)) as [[|n]|];
    constructor; auto; cbn [piece_text].
  - constructor; [assumption | constructor].
  - apply Forall_firstn; assumption.
  - constructor; [assumption | constructor].
Qed.

(** Every match found has a character the pattern needs. *)
Lemma scan_hits_need q r s : forall k prev,
  needs q r ->
  Forall (fun pc => match pc with
                    | Gap _ => True
                    | Hit m => Exists (fun c => q c = true) m
                    end) (scan word r k prev s).
Proof.
  induction s as [|c tl IH]; intros k prev Hq; [constructor|].
  cbn [scan]; destruct k as [|k]; [|auto].
  destruct (match_at word r prev (c :: tl)) as [[|n]|] eqn:E; constructor; auto.
  apply match_at_In in E; eapply ends_needs; eassumption.
Qed.

(** Where no character is of the needed kind, nothing matches. *)
Lemma scan_no_match q r s : forall prev,
  needs q r ->
  Forall (fun c => q c = false) s ->
  scan word r 0 prev s = map Gap s.
Proof.
  induction s as [|c tl IH]; intros prev Hq H; [reflexivity|].
  inversion H as [|? ? Hc Htl]; subst.
  cbn [scan map].
  destruct (match_at word r prev (c :: tl)) as [[|n]|] eqn:E;
    try (rewrite IH by assumption; reflexivity).
  exfalso. apply match_at_In in E.
  eapply ends_needs in E; [|exact Hq].
  apply Exists_exists in E; destruct E as (x & Hx & Hqx).
  apply In_firstn in Hx. rewrite Forall_forall in H.
  rewrite (H x Hx) in Hqx; discriminate.
Qed.

Lemma re_sub_no_match q r repl s :
  needs q r ->
  Forall (fun c => q c = false) s ->
  re_sub word r repl s = s.
Proof.
  intros Hq H; unfold re_sub; rewrite (@scan_no_match q r s None Hq H).
  clear; induction s as [|c tl IH]; [reflexivity|].
  cbn [map flat_map app]; rewrite IH; reflexivity.
Qed.

Lemma re_sub_Forall (P : char -> Prop) r repl s :
  (forall m, Forall P m -> Forall P (repl m)) ->
  Forall P s ->
  Forall P (re_sub word r repl s).
Proof.
  intros Hrepl H; unfold re_sub.
  apply Forall_flat_map.
  eapply Forall_impl; [|apply scan_pieces; exact H].
  intros [c|m]; cbn [piece_text]; auto.
Qed.

End Matcher.

(** ** Dependence on the tables *)

(** Each library function reads the tables only at the characters of
    its argument. *)

Section Locality.

Variable P : char -> Prop.

Lemma run_ext p p' s :
  (forall c, P c -> p c = p' c) -> Forall P s -> run p s = run p' s.
Proof.
  intros Hp H; induction H as [|c tl Hc Htl IH]; [reflexivity|].
  cbn [run]; rewrite <- (Hp c Hc), IH; reflexivity.
Qed.

Lemma dropwhile_ext p p' s :
  (forall c, P c -> p c = p' c) -> Forall P s -> dropwhile p s = dropwhile p' s.
Proof.
  intros Hp H; induction H as [|c tl Hc Htl IH]; [reflexivity|].
  cbn [dropwhile]; rewrite <- (Hp c Hc), IH; reflexivity.
Qed.

Lemma dropwhile_Forall p s : Forall P s -> Forall P (dropwhile p s).
Proof.
  intros H; induction H as [|c tl Hc Htl IH]; [constructor|].
  cbn [dropwhile]; destruct (p c); [assumption | constructor; assumption].
Qed.

Lemma prev_at_P prev s n : P_opt P prev -> Forall P s -> P_opt P (prev_at prev s n).
Proof.
  intros Hp H; revert prev n Hp; induction H as [|c tl Hc Htl IH]; intros prev n Hp.
  - unfold prev_at; rewrite firstn_nil; exact Hp.
  - destruct n as [|n]; [exact Hp|]. rewrite prev_at_S; apply IH; exact Hc.
Qed.

Variables word word' : char -> bool.
Hypothesis word_ext : forall c, P c -> word c = word' c.

Lemma ends_ext r : forall r' prev s,
  similar P r r' -> P_opt P prev -> Forall P s ->
  ends word r prev s = ends word' r' prev s.
Proof.
  induction r as [p | p | p | | r1 IH1 r2 IH2 | r1 IH1 r2 IH2];
    intros [p' | p' | p' | | r1' r2' | r1' r2'] prev s Hr Hp H;
    cbn [similar] in Hr; try contradiction; cbn [ends].
  - destruct H as [|c tl Hc Htl]; [reflexivity|]. rewrite (Hr c Hc); reflexivity.
  - rewrite (@run_ext p p' s Hr H); reflexivity.
  - rewrite (@run_ext p p' s Hr H); reflexivity.
  - replace (at_boundary word' prev s) with (at_boundary word prev s); [reflexivity|].
    unfold at_boundary; f_equal.
    + destruct prev as [c|]; cbn in *; auto.
    + destruct H as [|c tl Hc Htl]; cbn; auto.
  - destruct Hr as [Hr1 Hr2].
    rewrite (IH1 r1' prev s Hr1 Hp H).
    apply flat_map_ext; intros n.
    rewrite (IH2 r2' (prev_at prev s n) (skipn n s) Hr2); [reflexivity | |].
    + apply prev_at_P; assumption.
    + apply Forall_skipn; assumption.
  - destruct Hr as [Hr1 Hr2].
    rewrite (IH1 r1' prev s Hr1 Hp H), (IH2 r2' prev s Hr2 Hp H); reflexivity.
Qed.

Lemma scan_ext r r' s : forall k prev,
  similar P r r' -> P_opt P prev -> Forall P s ->
  scan word r k prev s = scan word' r' k prev s.
Proof.
  induction s as [|c tl IH]; intros k prev Hr Hp H; [reflexivity|].
  assert (Htl : Forall P tl) by (inversion H; assumption).
  assert (Hc : P_opt P (Some c)) by (inversion H; assumption).
  cbn [scan]; destruct k as [|k]; [|apply IH; assumption].
  unfold match_at; rewrite (@ends_ext r r' prev (c :: tl) Hr Hp H).
  destruct (hd_error (ends word' r' prev (c :: tl))) as [[|n]|];
    rewrite IH by assumption; reflexivity.
Qed.

Lemma re_sub_ext r r' repl s :
  similar P r r' -> Forall P s ->
  re_sub word r repl s = re_sub word' r' repl s.
Proof.
  intros Hr H; unfold re_sub; rewrite (@scan_ext r r' s 0%nat None Hr I H); reflexivity.
Qed.

Lemma re_findall_ext r r' s :
  similar P r r' -> Forall P s ->
  re_findall word r s = re_findall word' r' s.
Proof.
  intros Hr H; unfold re_findall; rewrite (@scan_ext r r' s 0%nat None Hr I H); reflexivity.
Qed.

End Locality.

Lemma similar_refl P r : similar P r r.
Proof. induction r; cbn [similar]; auto. Qed.

(** ** Splitting, joining and stripping *)

Section Words.

Variable U : UnicodeData.
Variable P : char -> Prop.

Lemma split_from_Forall s : forall word,
  Forall P word -> Forall P s -> Forall (Forall P) (split_from U word s).
Proof.
  induction s as [|c tl IH]; intros word Hw H; cbn [split_from].
  - destruct word; constructor; [apply Forall_rev; assumption | constructor].
  - inversion H as [|? ? Hc Htl]; subst.
    destruct (isspace U c).
    + destruct word; [apply IH; auto|].
      constructor; [apply Forall_rev; assumption | apply IH; auto].
    + apply IH; auto.
Qed.

Lemma split_Forall s : Forall P s -> Forall (Forall P) (split U s).
Proof. apply split_from_Forall; constructor. Qed.

Lemma join_Forall sep ws :
  Forall P sep -> Forall (Forall P) ws -> Forall P (join sep ws).
Proof.
  intros Hsep H; induction H as [|w rest Hw Hrest IH]; [constructor|].
  cbn [join]; destruct rest; [assumption|].
  apply Forall_app; split; [assumption|].
  apply Forall_app; split; assumption.
Qed.

Lemma strip_Forall s : Forall P s -> Forall P (strip U s).
Proof.
  intros H; unfold strip.
  apply Forall_rev, dropwhile_Forall, Forall_rev, dropwhile_Forall; assumption.
Qed.

Lemma filter_words_incl common preserved numbers words word :
  In word (filter_words U common preserved numbers words) -> In word words.
Proof. intros H; apply filter_words_In in H; tauto. Qed.

Lemma filter_words_Forall (Q : str -> Prop) common preserved numbers words :
  Forall Q words -> Forall Q (filter_words U common preserved numbers words).
Proof.
  intros H; apply Forall_forall; intros w Hw.
  apply filter_words_incl in Hw; rewrite Forall_forall in H; auto.
Qed.

End Words.

(** ** The excerpt of the database *)

Local Abbreviation Listed := (Forall (fun c => listed c = true)).

Lemma listed_inv c :
  listed c = true ->
  (c < 128)%N \/ In c [0xC9; 0xD6; 0xDF; 0xE9; 0xF6; 0x301; 0x308; 0x2122]%N.
Proof.
  unfold listed; rewrite orb_true_iff, N.ltb_lt, existsb_exists.
  intros [H|(x & Hx & E)]; [left; assumption|].
  right; apply N.eqb_eq in E; subst; assumption.
Qed.

Lemma listed_ascii c : (c < 128)%N -> listed c = true.
Proof. intros H; unfold listed; apply orb_true_iff; left; apply N.ltb_lt; exact H. Qed.

Ltac split_listed H :=
  apply listed_inv in H; destruct H as [H|H];
  [| cbn [In] in H; repeat (destruct H as [H|H]; [subst|]); try contradiction ].

Ltac cases_N :=
  repeat match goal with
         | |- context [(?a <=? ?b)%N] => destruct (N.leb_spec a b)
         | |- context [(?a =? ?b)%N] => destruct (N.eqb_spec a b)
         | |- context [(?a <? ?b)%N] => destruct (N.ltb_spec a b)
         end; cbn [andb orb negb]; try lia.

Lemma listed_not_sigma c : listed c = true -> c <> capital_sigma.
Proof.
  intros H; split_listed H; unfold capital_sigma; try lia; discriminate.
Qed.

Lemma listed_lower_closed c :
  listed c = true -> Listed (to_lower_full ucd_excerpt c).
Proof.
  intros H; split_listed H; try solve [vm_compute; repeat constructor].
  cbn [to_lower_full ucd_excerpt]; unfold in_range; cases_N;
    repeat constructor; apply listed_ascii; lia.
Qed.

Lemma listed_decomposition_closed c :
  listed c = true -> Listed (decomposition ucd_excerpt c).
Proof.
  intros H; split_listed H; try solve [vm_compute; repeat constructor].
  cbn [decomposition ucd_excerpt]; cases_N;
    repeat constructor; apply listed_ascii; lia.
Qed.

(** The excerpt has the assumed properties. *)
Lemma excerpt_facts : UnicodeFacts ucd_excerpt.
Proof.
  constructor; try reflexivity.
  - intros c; cbn [isspace to_lower_full ucd_excerpt]; unfold in_range, capital_sigma.
    intros H; split; [revert H; cases_N; reflexivity | revert H; cases_N].
  - intros c H; exists c; split; [|split; [exact H|]]; revert H;
      cbn [isspace decomposition combining ucd_excerpt]; unfold in_range;
      cases_N; reflexivity.
Qed.

(** ** Text made of listed characters *)

(** On text made of listed characters the function is decided by the
    entries of the excerpt. *)

Section Transfer.

Variable U : UnicodeData.
Hypothesis HU : UnicodeFacts U.

Let E := ucd_excerpt.

Lemma Listed_no_sigma s : Listed s -> Forall (fun c => c <> capital_sigma) s.
Proof. apply Forall_impl; exact listed_not_sigma. Qed.

Lemma flat_map_listed (f g : char -> str) s :
  (forall c, listed c = true -> f c = g c) ->
  (forall c, listed c = true -> Listed (g c)) ->
  Listed s ->
  flat_map f s = flat_map g s /\ Listed (flat_map g s).
Proof.
  intros Hfg Hg H; induction H as [|c tl Hc Htl [IH1 IH2]];
    [split; [reflexivity | constructor]|].
  cbn [flat_map]; rewrite (Hfg c Hc), IH1; split; [reflexivity|].
  apply Forall_app; split; auto.
Qed.

Lemma lower_listed s :
  Listed s -> lower U s = lower E s /\ Listed (lower E s).
Proof.
  intros H.
  rewrite !lower_no_sigma by (apply Listed_no_sigma; exact H).
  apply flat_map_listed;
    [apply (listed_lower HU) | exact listed_lower_closed | exact H].
Qed.

Lemma strip_combining_listed s :
  Listed s -> strip_combining U s = strip_combining E s /\ Listed (strip_combining E s).
Proof.
  intros H; unfold strip_combining; split.
  - apply filter_ext_in; intros c Hc; rewrite Forall_forall in H.
    rewrite (listed_combining HU); auto.
  - apply Forall_forall; intros c Hc; apply filter_In in Hc.
    rewrite Forall_forall in H; apply H; tauto.
Qed.

Lemma unaccented_listed s :
  Listed s -> unaccented U s = unaccented E s /\ Listed (unaccented E s).
Proof.
  intros H; rewrite !unaccented_eq.
  destruct (lower_listed H) as [-> H1].
  destruct (@flat_map_listed (decomposition U) (decomposition E) (lower E s))
    as [-> H2];
    [apply (listed_decomposition HU) | exact listed_decomposition_closed | exact H1 |].
  apply strip_combining_listed; exact H2.
Qed.

Lemma is_word_listed c : listed c = true -> is_word U c = is_word E c.
Proof. intros H; unfold is_word; rewrite (listed_isalnum HU) by exact H; reflexivity. Qed.

Lemma re_sub_listed r r' repl s :
  similar (fun c => listed c = true) r r' ->
  (forall m, Listed m -> Listed (repl m)) ->
  Listed s ->
  re_sub (is_word U) r repl s = re_sub (is_word E) r' repl s
  /\ Listed (re_sub (is_word E) r' repl s).
Proof.
  intros Hr Hrepl H; split.
  - apply re_sub_ext with (P := fun c => listed c = true);
      [exact is_word_listed | exact Hr | exact H].
  - apply re_sub_Forall; assumption.
Qed.

Lemma Listed_space : Listed [space].
Proof. repeat constructor. Qed.

Lemma cleaned_listed s :
  Listed s -> cleaned U s = cleaned E s /\ Listed (cleaned E s).
Proof.
  intros H; unfold cleaned; cbv zeta.
  destruct (unaccented_listed H) as [-> H1].
  destruct (@re_sub_listed model_pattern model_pattern drop_dots (unaccented E s))
    as [-> H2]; [apply similar_refl | | exact H1 |].
  { intros m Hm; apply Forall_forall; intros c Hc; apply filter_In in Hc.
    rewrite Forall_forall in Hm; apply Hm; tauto. }
  apply re_sub_listed; [| intros; exact Listed_space | exact H2].
  cbn [special_pattern similar]; intros c Hc.
  rewrite (is_word_listed c Hc), (listed_isspace HU) by exact Hc; reflexivity.
Qed.

Lemma split_from_listed s : forall word,
  Listed s -> split_from U word s = split_from E word s.
Proof.
  induction s as [|c tl IH]; intros word H; [reflexivity|].
  inversion H as [|? ? Hc Htl]; subst.
  cbn [split_from]; rewrite (listed_isspace HU) by exact Hc.
  rewrite !IH by exact Htl; reflexivity.
Qed.

Lemma keep_word_listed common preserved numbers word :
  Listed word ->
  keep_word U common preserved numbers word
  = keep_word E common preserved numbers word.
Proof.
  intros H; unfold keep_word; destruct (lower_listed H) as [-> _]; reflexivity.
Qed.

Lemma filter_words_listed common preserved numbers words :
  Forall Listed words ->
  filter_words U common preserved numbers words
  = filter_words E common preserved numbers words.
Proof.
  intros H; induction H as [|w rest Hw Hrest IH]; [reflexivity|].
  cbn [filter_words]; rewrite (keep_word_listed _ _ _ Hw), IH; reflexivity.
Qed.

Lemma filtered_words_listed result :
  Listed result ->
  filtered_words U result = filtered_words E result
  /\ Forall Listed (filtered_words E result).
Proof.
  intros H; unfold filtered_words, model_numbers, split.
  rewrite (split_from_listed [] H).
  assert (Hw : Forall Listed (split_from E [] result))
    by (apply (split_Forall E H)).
  rewrite (filter_words_listed _ _ _ Hw); split.
  - f_equal.
    apply re_findall_ext with (P := fun c => listed c = true);
      [exact is_word_listed | | exact H].
    cbn [model_number_pattern similar]; repeat split; auto.
    intros c Hc; apply (listed_isdecimal HU); exact Hc.
  - apply filter_words_Forall; exact Hw.
Qed.

Lemma strip_listed s : Listed s -> strip U s = strip E s.
Proof.
  intros H; unfold strip.
  assert (Hd : dropwhile (isspace U) s = dropwhile (isspace E) s)
    by (apply dropwhile_ext with (P := fun c => listed c = true);
        [apply (listed_isspace HU) | exact H]).
  rewrite Hd; f_equal.
  apply dropwhile_ext with (P := fun c => listed c = true);
    [apply (listed_isspace HU) |].
  apply Forall_rev, dropwhile_Forall; exact H.
Qed.

Lemma standard_result_listed s :
  Listed s -> standard_result U s = standard_result E s /\ Listed (standard_result E s).
Proof.
  intros H; unfold standard_result.
  destruct (cleaned_listed H) as [-> H1].
  destruct (filtered_words_listed H1) as [-> H2].
  assert (H3 : Listed (join [space] (filtered_words E (cleaned E s))))
    by (apply join_Forall; [exact Listed_space | exact H2]).
  destruct (@re_sub_listed (spaces_pattern U) (spaces_pattern E)
              (fun _ : str => [space])
              (join [space] (filtered_words E (cleaned E s))))
    as [-> H4]; [| intros; exact Listed_space | exact H3 |].
  { cbn [spaces_pattern similar]; apply (listed_isspace HU). }
  split; [apply strip_listed; exact H4 | apply strip_Forall; exact H4].
Qed.

(** The result on text of listed characters can be computed from the
    excerpt. *)
Lemma normalize_listed s mode :
  Listed s -> normalize U s mode = normalize E s mode.
Proof.
  intros H; unfold normalize; rewrite !process_brand_str.
  destruct s as [|c tl]; [reflexivity|]. cbn [returned].
  destruct (eq_str (PyStr mode) (py "alphanumeric")) eqn:Em.
  - apply eq_str_true in Em; rewrite Em, !process_str_alphanumeric.
    destruct (standard_result_listed H) as [-> _]; reflexivity.
  - rewrite !process_str_standard by exact Em.
    apply standard_result_listed; exact H.
Qed.

End Transfer.

Lemma Listed_forallb s : forallb listed s = true -> Listed s.
Proof. intros H; apply Forall_forall; apply forallb_forall; exact H. Qed.

Lemma model_numbers_listed U result :
  UnicodeFacts U -> Listed result ->
  model_numbers U result = model_numbers ucd_excerpt result.
Proof.
  intros HU H; unfold model_numbers.
  apply re_findall_ext with (P := fun c => listed c = true);
    [apply is_word_listed; exact HU | | exact H].
  cbn [model_number_pattern similar]; repeat split; auto.
  intros c Hc; apply (listed_isdecimal HU); exact Hc.
Qed.

(** ** Worked examples *)

(** C3: "Rolex Submariner GMT" gives "rolex submariner" and
    "rolexsubmariner": "gmt" is a common term, is not a preserved term
    and is not among the model numbers of the text, so it is removed. *)
Theorem rolex_submariner_gmt (U : UnicodeData) :
  UnicodeFacts U ->
  normalize U (py "Rolex Submariner GMT") (py "standard") = py "rolex submariner"
  /\ normalize U (py "Rolex Submariner GMT") (py "alphanumeric") = py "rolexsubmariner"
  /\ str_in (py "gmt") common_terms = true
  /\ str_in (py "gmt") preserved_terms = false
  /\ str_in (py "gmt") (model_numbers U (cleaned U (py "Rolex Submariner GMT"))) = false.
Proof.
  intros HU.
  assert (H : Listed (py "Rolex Submariner GMT"))
    by (apply Listed_forallb; vm_compute; reflexivity).
  rewrite !(normalize_listed HU) by exact H.
  destruct (cleaned_listed HU H) as [-> H1].
  rewrite (model_numbers_listed HU H1).
  repeat split; vm_compute; reflexivity.
Qed.

Lemma rolex_submariner_gmt_witness :
  normalize ucd_excerpt (py "Rolex Submariner GMT") (py "standard") = py "rolex submariner".
Proof. exact (proj1 (rolex_submariner_gmt excerpt_facts)). Defined.

(** C8: "F.P. Journe Élégante" gives "fp journe elegante" and
    "fpjourneelegante": the accented letters lose their accents, and the
    abbreviation "f.p." loses its dots. *)
Theorem fp_journe_elegante (U : UnicodeData) :
  UnicodeFacts U ->
  normalize U (py "F.P. Journe Élégante") (py "standard") = py "fp journe elegante"
  /\ normalize U (py "F.P. Journe Élégante") (py "alphanumeric") = py "fpjourneelegante"
  /\ unaccented U (py "F.P. Journe Élégante") = py "f.p. journe elegante"
  /\ re_sub (is_word U) model_pattern drop_dots (py "f.p. journe elegante")
     = py "fp journe elegante".
Proof.
  intros HU.
  assert (H : Listed (py "F.P. Journe Élégante"))
    by (apply Listed_forallb; vm_compute; reflexivity).
  assert (H' : Listed (py "f.p. journe elegante"))
    by (apply Listed_forallb; vm_compute; reflexivity).
  rewrite !(normalize_listed HU) by exact H.
  destruct (unaccented_listed HU H) as [-> _].
  destruct (@re_sub_listed U HU model_pattern model_pattern drop_dots
              (py "f.p. journe elegante")) as [-> _];
    [apply similar_refl | | exact H' |].
  { intros m Hm; apply Forall_forall; intros c Hc; apply filter_In in Hc.
    rewrite Forall_forall in Hm; apply Hm; tauto. }
  repeat split; vm_compute; reflexivity.
Qed.

Lemma fp_journe_elegante_witness :
  normalize ucd_excerpt (py "F.P. Journe Élégante") (py "standard")
  = py "fp journe elegante".
Proof. exact (proj1 (fp_journe_elegante excerpt_facts)). Defined.

(** C10: the standard-mode result is not confined to lower-case ASCII
    letters, digits and spaces: an underscore survives, and so does a
    non-ASCII word character such as "ß". *)
Theorem standard_result_keeps_word_characters (U : UnicodeData) :
  UnicodeFacts U ->
  normalize U (py "Rolex_GMT") (py "standard") = py "rolex_gmt"
  /\ normalize U (py "Weiß") (py "standard") = py "weiß"
  /\ exists s c, In c (normalize U s (py "standard"))
                 /\ az09 c = false /\ c <> space.
Proof.
  intros HU.
  assert (H1 : normalize U (py "Rolex_GMT") (py "standard") = py "rolex_gmt").
  { rewrite (normalize_listed HU) by (apply Listed_forallb; vm_compute; reflexivity).
    vm_compute; reflexivity. }
  assert (H2 : normalize U (py "Weiß") (py "standard") = py "weiß").
  { rewrite (normalize_listed HU) by (apply Listed_forallb; vm_compute; reflexivity).
    vm_compute; reflexivity. }
  split; [exact H1 | split; [exact H2|]].
  exists (py "Weiß"), 0xDF%N; rewrite H2.
  split; [vm_compute; auto 10 | split; [reflexivity | discriminate]].
Qed.

Lemma standard_result_keeps_word_characters_witness :
  normalize ucd_excerpt (py "Rolex_GMT") (py "standard") = py "rolex_gmt".
Proof. exact (proj1 (standard_result_keeps_word_characters excerpt_facts)). Defined.

(** ** Words and white space *)

Lemma rev_cons_not_nil (A : Type) (x : A) (l : list A) : rev (x :: l) <> [].
Proof.
  intros H; apply (f_equal (@length A)) in H.
  rewrite length_rev in H; discriminate.
Qed.

Section Tokens.

Variable U : UnicodeData.

Local Abbreviation nonspace := (Forall (fun c => isspace U c = false)).

Lemma clean_word_rev x word : nonspace (x :: word) -> clean_word U (rev (x :: word)).
Proof. intros H; split; [apply rev_cons_not_nil | apply Forall_rev; exact H]. Qed.

(** The words of a split are clean. *)
Lemma split_from_clean s : forall word,
  nonspace word -> Forall (clean_word U) (split_from U word s).
Proof.
  induction s as [|c tl IH]; intros word Hw; cbn [split_from].
  - destruct word; constructor; [apply clean_word_rev; exact Hw | constructor].
  - destruct (isspace U c) eqn:E.
    + destruct word as [|x word']; [apply IH; constructor|].
      constructor; [apply clean_word_rev; exact Hw | apply IH; constructor].
    + apply IH; constructor; assumption.
Qed.

Lemma split_clean s : Forall (clean_word U) (split U s).
Proof. apply split_from_clean; constructor. Qed.

Lemma split_from_word w : forall word s,
  nonspace w -> split_from U word (w ++ s) = split_from U (rev w ++ word) s.
Proof.
  induction w as [|c w IH]; intros word s H; [reflexivity|].
  inversion H as [|? ? Hc Hw]; subst.
  cbn [app split_from rev]; rewrite Hc, IH by exact Hw.
  rewrite <- app_assoc; reflexivity.
Qed.

(** A clean word in front of the end of the text, or of a space, is
    the next word of the split. *)
Lemma split_word_end w : clean_word U w -> split U w = [w].
Proof.
  intros [Hne Hw]; unfold split.
  rewrite <- (app_nil_r w) at 1; rewrite split_from_word by exact Hw.
  rewrite app_nil_r; cbn [split_from].
  destruct (rev w) eqn:E.
  - apply (f_equal (@rev char)) in E; rewrite rev_involutive in E; contradiction.
  - rewrite <- E, rev_involutive; reflexivity.
Qed.

Lemma split_word_space w c s :
  clean_word U w -> isspace U c = true -> split U (w ++ c :: s) = w :: split U s.
Proof.
  intros [Hne Hw] Hc; unfold split.
  rewrite split_from_word by exact Hw.
  rewrite app_nil_r; cbn [split_from]; rewrite Hc.
  destruct (rev w) eqn:E.
  - apply (f_equal (@rev char)) in E; rewrite rev_involutive in E; contradiction.
  - rewrite <- E, rev_involutive; reflexivity.
Qed.

Lemma split_space c s : isspace U c = true -> split U (c :: s) = split U s.
Proof. intros Hc; unfold split; cbn [split_from]; rewrite Hc; reflexivity. Qed.

Hypothesis space_isspace : isspace U space = true.

(** Splitting undoes joining with single spaces. *)
Lemma split_join ws :
  Forall (clean_word U) ws -> split U (join [space] ws) = ws.
Proof.
  intros H; induction H as [|w rest Hw Hrest IH]; [reflexivity|].
  cbn [join]; destruct rest as [|w' rest']; [apply split_word_end; exact Hw|].
  cbn [app]; rewrite split_word_space by assumption.
  rewrite IH; reflexivity.
Qed.

Lemma tight_app s t : s <> [] -> tight U s -> tight U (s ++ t).
Proof. destruct s; [contradiction | auto]. Qed.

Lemma clean_word_tight w : clean_word U w -> tight U w.
Proof. intros [Hne Hw]; destruct Hw; [exact I | assumption]. Qed.

Lemma join_tight ws : Forall (clean_word U) ws -> tight U (join [space] ws).
Proof.
  intros H; destruct H as [|w rest Hw Hrest]; [exact I|].
  cbn [join]; destruct rest; [apply clean_word_tight; exact Hw|].
  apply tight_app; [apply Hw | apply clean_word_tight; exact Hw].
Qed.

Lemma clean_word_rev_tight w : clean_word U w -> rev w <> [] /\ tight U (rev w).
Proof.
  intros [Hne Hw]; split.
  - intros E; apply (f_equal (@rev char)) in E; rewrite rev_involutive in E; auto.
  - apply Forall_rev in Hw; destruct Hw; [exact I | assumption].
Qed.

Lemma rev_join_tight ws : Forall (clean_word U) ws -> tight U (rev (join [space] ws)).
Proof.
  intros H; induction H as [|w rest Hw Hrest IH]; [exact I|].
  cbn [join]; destruct rest as [|w' rest'].
  - apply clean_word_rev_tight; exact Hw.
  - rewrite rev_app_distr.
    remember (join [space] (w' :: rest')) as j eqn:Ej.
    cbn [app rev]. rewrite <- app_assoc.
    destruct (rev j) as [|x xs] eqn:Er; [|exact IH].
    apply (f_equal (@rev char)) in Er; rewrite rev_involutive in Er.
    cbn [rev] in Er; subst j.
    inversion Hrest as [|? ? [Hne' _] _]; subst.
    cbn [join] in Er; destruct rest'; [contradiction|].
    destruct w'; [contradiction | discriminate].
Qed.

Lemma dropwhile_tight s : tight U s -> dropwhile (isspace U) s = s.
Proof. destruct s as [|c tl]; [reflexivity|]; cbn; intros ->; reflexivity. Qed.

(** Joined clean words have nothing to strip. *)
Lemma strip_join ws :
  Forall (clean_word U) ws -> strip U (join [space] ws) = join [space] ws.
Proof.
  intros H; unfold strip.
  rewrite (dropwhile_tight _ (join_tight H)).
  rewrite (dropwhile_tight _ (rev_join_tight H)).
  apply rev_involutive.
Qed.

(** *** Collapsing white space *)

Lemma squeeze_word p r w : forall s,
  Forall (fun c => p c = false) w ->
  squeeze p r false (w ++ s) = w ++ squeeze p r false s
  /\ (w <> [] -> squeeze p r true (w ++ s) = w ++ squeeze p r false s).
Proof.
  intros s H; induction H as [|c w Hc Hw [IH1 IH2]];
    [split; [reflexivity | intros []; reflexivity]|].
  cbn [app squeeze]; rewrite Hc, IH1; split; [reflexivity | intros _; reflexivity].
Qed.

Lemma squeeze_join ws :
  Forall (clean_word U) ws ->
  squeeze (isspace U) [space] false (join [space] ws) = join [space] ws.
Proof.
  intros H; induction H as [|w rest Hw Hrest IH]; [reflexivity|].
  cbn [join]; destruct rest as [|w' rest'].
  - rewrite <- (app_nil_r w) at 1.
    rewrite (proj1 (squeeze_word _ _ _ (proj2 Hw))); cbn [squeeze].
    apply app_nil_r.
  - rewrite (proj1 (squeeze_word _ _ _ (proj2 Hw))).
    cbn [app squeeze]; rewrite space_isspace.
    f_equal; cbn [app]; f_equal.
    remember (join [space] (w' :: rest')) as j eqn:Ej.
    assert (Ht : tight U j) by (subst j; apply join_tight; exact Hrest).
    destruct j as [|c tl]; [reflexivity|].
    cbn [tight] in Ht. cbn [squeeze] in IH |- *.
    rewrite Ht in IH |- *; exact IH.
Qed.

End Tokens.

(** [re.sub] with a pattern [p+] and a constant replacement. *)
Lemma scan_Plus word p r s : forall prev,
  flat_map (fun pc => match pc with Gap c => [c] | Hit _ => r end)
           (scan word (Plus p) (run p s) prev s) = squeeze p r true s
  /\ flat_map (fun pc => match pc with Gap c => [c] | Hit _ => r end)
              (scan word (Plus p) 0 prev s) = squeeze p r false s.
Proof.
  induction s as [|c tl IH]; intros prev; [split; reflexivity|].
  destruct (IH (Some c)) as [IH1 IH2].
  cbn [run scan squeeze]; unfold match_at; cbn [ends run].
  destruct (p c) eqn:Hc.
  - split; [exact IH1|].
    cbn [countdown Nat.leb hd_error flat_map]; rewrite IH1; reflexivity.
  - cbn [countdown Nat.eqb hd_error flat_map]; rewrite IH2; split; reflexivity.
Qed.

Lemma re_sub_Plus word p r s :
  re_sub word (Plus p) (fun _ => r) s = squeeze p r false s.
Proof. unfold re_sub; apply scan_Plus. Qed.

(** ** The standard-mode result, word by word *)

Section StandardResult.

Variable U : UnicodeData.
Hypothesis HU : UnicodeFacts U.

Lemma space_isspace : isspace U space = true.
Proof. rewrite (listed_isspace HU) by reflexivity; reflexivity. Qed.

Lemma dot_not_word_nor_space : is_word U dot = false /\ isspace U dot = false.
Proof.
  unfold is_word.
  rewrite (listed_isalnum HU), (listed_isspace HU) by reflexivity.
  split; reflexivity.
Qed.

Lemma az_listed c : az c = true -> listed c = true.
Proof.
  unfold az, in_range; intros H; apply listed_ascii; revert H; cases_N.
Qed.

Lemma az_not_decimal c : az c = true -> isdecimal U c = false.
Proof.
  intros H; rewrite (listed_isdecimal HU) by (apply az_listed; exact H).
  revert H; cbn [isdecimal ucd_excerpt]; unfold az, in_range; cases_N.
Qed.

(** After the cleaning every character is a word character or white
    space. *)
Lemma cleaned_word_or_space s :
  Forall (fun c => is_word U c = true \/ isspace U c = true) (cleaned U s).
Proof.
  unfold cleaned, special_pattern; cbv zeta; rewrite re_sub_replace.
  apply Forall_map, Forall_forall; intros c _.
  destruct (is_word U c || isspace U c) eqn:E; cbn [negb].
  - apply orb_true_iff in E; exact E.
  - right; exact space_isspace.
Qed.

(** The words kept: clean, and made of word characters. *)
Lemma filtered_words_clean result :
  Forall (clean_word U) (filtered_words U result).
Proof. apply filter_words_Forall, split_clean. Qed.

Lemma filtered_words_word_chars s :
  Forall (Forall (fun c => is_word U c = true)) (filtered_words U (cleaned U s)).
Proof.
  apply Forall_forall; intros w Hw.
  assert (Hc : clean_word U w).
  { pose proof (filtered_words_clean (cleaned U s)) as H.
    rewrite Forall_forall in H; auto. }
  apply filter_words_incl in Hw.
  pose proof (split_Forall U (cleaned_word_or_space s)) as H.
  rewrite Forall_forall in H; specialize (H w Hw).
  destruct Hc as [_ Hc]; rewrite Forall_forall in *.
  intros c Hin; destruct (H c Hin) as [Hword|Hsp]; [exact Hword|].
  rewrite (Hc c Hin) in Hsp; discriminate.
Qed.

(** The collapse of white space and the trimming change nothing: the
    standard-mode result is the kept words joined by single spaces. *)
Lemma standard_result_join s :
  standard_result U s = join [space] (filtered_words U (cleaned U s)).
Proof.
  unfold standard_result, spaces_pattern.
  rewrite re_sub_Plus.
  rewrite (squeeze_join space_isspace (filtered_words_clean (cleaned U s))).
  apply strip_join, filtered_words_clean.
Qed.

(** *** The model numbers never decide *)

Lemma common_terms_az : Forall (Forall (fun c => az c = true)) common_terms.
Proof.
  apply Forall_forall; intros w Hw; apply Forall_forall; intros c Hc.
  assert (H : forallb (forallb az) common_terms = true) by (vm_compute; reflexivity).
  rewrite forallb_forall in H; specialize (H w Hw).
  rewrite forallb_forall in H; auto.
Qed.

Lemma needs_decimal : needs (isdecimal U) (model_number_pattern U).
Proof. cbn [needs model_number_pattern]; auto. Qed.

(** Every model number has a decimal digit. *)
Lemma model_numbers_decimal result m :
  In m (model_numbers U result) -> Exists (fun c => isdecimal U c = true) m.
Proof.
  unfold model_numbers, re_findall; intros H.
  apply in_flat_map in H; destruct H as ([c|m'] & Hpc & Hm); [contradiction|].
  destruct Hm as [<-|[]].
  pose proof (scan_hits_need (is_word U) (isdecimal U) (model_number_pattern U)
                result 0 None needs_decimal) as Hs.
  rewrite Forall_forall in Hs; exact (Hs _ Hpc).
Qed.

(** A common term has none, so it is never a model number: the third
    test of the loop never changes the outcome. *)
Lemma keep_word_without_numbers result word :
  keep_word U common_terms preserved_terms (model_numbers U result) word
  = keep_word U common_terms preserved_terms [] word.
Proof.
  unfold keep_word; cbv zeta.
  destruct (str_in (lower U word) common_terms) eqn:Ec; [|reflexivity].
  destruct (str_in (lower U word) (model_numbers U result)) eqn:En;
    [|rewrite !orb_false_r; reflexivity].
  exfalso.
  apply str_in_In in Ec, En.
  apply model_numbers_decimal in En.
  apply Exists_exists in En; destruct En as (c & Hc & Hd).
  pose proof common_terms_az as Haz; rewrite Forall_forall in Haz.
  specialize (Haz _ Ec); rewrite Forall_forall in Haz.
  rewrite (az_not_decimal c (Haz c Hc)) in Hd; discriminate.
Qed.

Lemma filter_words_all common preserved numbers words :
  Forall (fun w => keep_word U common preserved numbers w = true) words ->
  filter_words U common preserved numbers words = words.
Proof.
  intros H; induction H as [|w rest Hw Hrest IH]; [reflexivity|].
  cbn [filter_words]; rewrite Hw, IH; reflexivity.
Qed.

Lemma filter_words_kept common preserved numbers words :
  Forall (fun w => keep_word U common preserved numbers w = true)
         (filter_words U common preserved numbers words).
Proof.
  apply Forall_forall; intros w Hw; apply filter_words_In in Hw; tauto.
Qed.

(** *** A second pass *)

(** The characters of the standard-mode result. *)
Lemma standard_result_word_or_space s :
  Forall (fun c => is_word U c = true \/ c = space) (standard_result U s).
Proof.
  rewrite standard_result_join; apply join_Forall.
  - constructor; [right; reflexivity | constructor].
  - eapply Forall_impl; [|apply filtered_words_word_chars].
    intros w; apply Forall_impl; auto.
Qed.

(** If lower-casing and unaccenting leave the standard-mode result as
    it is, the whole function leaves it as it is. *)
Lemma standard_result_fixed s :
  unaccented U (standard_result U s) = standard_result U s ->
  standard_result U (standard_result U s) = standard_result U s.
Proof.
  intros Hfix.
  set (o := standard_result U s) in *.
  assert (Ho : Forall (fun c => is_word U c = true \/ c = space) o)
    by apply standard_result_word_or_space.
  destruct dot_not_word_nor_space as [Hdw Hds].
  (* the cleaning does nothing *)
  assert (Hclean : cleaned U o = o).
  { unfold cleaned; cbv zeta; rewrite Hfix.
    rewrite (@re_sub_no_match (is_word U) (char_eqb dot) model_pattern drop_dots o).
    - unfold special_pattern; rewrite re_sub_replace.
      rewrite <- (map_id o) at 2; apply map_ext_in; intros c Hc.
      rewrite Forall_forall in Ho; destruct (Ho c Hc) as [Hw| ->].
      + rewrite Hw; reflexivity.
      + destruct (negb _); reflexivity.
    - cbn [needs model_pattern Lit]; auto.
    - eapply Forall_impl; [|exact Ho]; intros c [Hw| ->]; [|reflexivity].
      destruct (char_eqb dot c) eqn:E; [|reflexivity].
      apply char_eqb_eq in E; subst c; congruence. }
  (* the words are the same, and all are kept again *)
  rewrite (standard_result_join o), Hclean.
  unfold o at 2; rewrite standard_result_join; f_equal.
  unfold filtered_words at 1.
  unfold o; rewrite standard_result_join.
  rewrite (split_join space_isspace (filtered_words_clean (cleaned U s))).
  apply filter_words_all.
  eapply Forall_impl; [|apply filter_words_kept].
  intros w Hw; cbv beta in Hw.
  rewrite keep_word_without_numbers in *; exact Hw.
Qed.

End StandardResult.

(** ** Idempotence of the standard mode *)

Section Idempotence.

Variable U : UnicodeData.
Hypothesis HU : UnicodeFacts U.

Lemma plain_listed c : plain c = true -> listed c = true.
Proof.
  unfold plain; intros H; apply listed_ascii; revert H; cases_N.
Qed.

Lemma plain_entries c :
  plain c = true ->
  to_lower_full U c = [c] /\ decomposition U c = [c] /\ combining U c = 0%N.
Proof.
  intros H; pose proof (plain_listed c H) as Hl.
  rewrite (listed_lower HU), (listed_decomposition HU), (listed_combining HU)
    by exact Hl.
  revert H; unfold plain; cbn [to_lower_full decomposition combining ucd_excerpt].
  unfold in_range; cases_N; intros _; repeat split; reflexivity.
Qed.

Lemma flat_map_singleton (f : char -> str) s :
  Forall (fun c => f c = [c]) s -> flat_map f s = s.
Proof.
  intros H; induction H as [|c tl Hc Htl IH]; [reflexivity|].
  cbn [flat_map]; rewrite Hc, IH; reflexivity.
Qed.

(** Plain text is already lower-case and unaccented. *)
Lemma unaccented_plain s :
  Forall (fun c => plain c = true) s -> unaccented U s = s.
Proof.
  intros H; rewrite unaccented_eq.
  rewrite lower_no_sigma.
  2:{ eapply Forall_impl; [|exact H].
      intros c Hc; apply listed_not_sigma, plain_listed; exact Hc. }
  rewrite (@flat_map_singleton (to_lower_full U)).
  2:{ eapply Forall_impl; [|exact H]; intros c Hc; apply plain_entries; exact Hc. }
  rewrite (@flat_map_singleton (decomposition U)).
  2:{ eapply Forall_impl; [|exact H]; intros c Hc; apply plain_entries; exact Hc. }
  unfold strip_combining; induction H as [|c tl Hc Htl IH]; [reflexivity|].
  cbn [filter]; destruct (plain_entries c Hc) as (_ & _ & ->).
  cbn; rewrite IH; reflexivity.
Qed.

(** Basic Latin text becomes plain text. *)
Lemma unaccented_ascii s :
  Forall (fun c => (c < 128)%N) s ->
  Forall (fun c => plain c = true) (unaccented ucd_excerpt s).
Proof.
  intros H; rewrite unaccented_eq.
  assert (Hl : Forall (fun c => c <> capital_sigma) s).
  { eapply Forall_impl; [|exact H]; intros c Hc; cbv beta in *.
    unfold capital_sigma; lia. }
  rewrite (lower_no_sigma _ Hl).
  unfold strip_combining.
  apply Forall_forall; intros c Hc; apply filter_In in Hc; destruct Hc as [Hc _].
  apply in_flat_map in Hc; destruct Hc as (x & Hx & Hc).
  apply in_flat_map in Hx; destruct Hx as (y & Hy & Hx).
  rewrite Forall_forall in H; specialize (H y Hy).
  revert Hx; cbn [to_lower_full ucd_excerpt]; unfold in_range; cases_N;
    cbn [In]; (intros [<-|[]]);
    revert Hc; cbn [decomposition ucd_excerpt]; cases_N;
    cbn [In]; (intros [<-|[]]);
    unfold plain, in_range; cases_N; reflexivity.
Qed.

(** From the unaccented text on, the function only removes characters
    and puts in spaces. *)
Lemma standard_result_Forall (P : char -> Prop) s :
  P space -> Forall P (unaccented U s) -> Forall P (standard_result U s).
Proof.
  intros Hsp H; rewrite (standard_result_join HU).
  apply join_Forall; [constructor; [exact Hsp | constructor]|].
  apply filter_words_Forall, split_Forall.
  unfold cleaned; cbv zeta.
  apply re_sub_Forall; [intros; constructor; [exact Hsp | constructor]|].
  apply re_sub_Forall; [|exact H].
  intros m Hm; apply Forall_forall; intros c Hc; apply filter_In in Hc.
  rewrite Forall_forall in Hm; apply Hm; tauto.
Qed.

Lemma ascii_listed s : Forall (fun c => (c < 128)%N) s -> Listed s.
Proof. apply Forall_impl; exact listed_ascii. Qed.

Lemma standard_result_ascii_plain s :
  Forall (fun c => (c < 128)%N) s ->
  Forall (fun c => plain c = true) (standard_result U s).
Proof.
  intros H; apply standard_result_Forall; [reflexivity|].
  destruct (unaccented_listed HU (ascii_listed H)) as [-> _].
  apply unaccented_ascii; exact H.
Qed.

End Idempotence.

(** C2, as the function has it: the standard mode is idempotent on
    every input whose result is left as it is by the lower-casing and
    unaccenting stages; every input of Basic Latin (ASCII) characters is
    such an input. *)
Theorem standard_idempotent_on_unaccented (U : UnicodeData) (s : str) :
  UnicodeFacts U ->
  (unaccented U (normalize U s (py "standard")) = normalize U s (py "standard") ->
   normalize U (normalize U s (py "standard")) (py "standard")
   = normalize U s (py "standard"))
  /\ (Forall (fun c => (c < 128)%N) s ->
      normalize U (normalize U s (py "standard")) (py "standard")
      = normalize U s (py "standard")).
Proof.
  intros HU; rewrite !normalize_standard.
  assert (H1 : unaccented U (standard_result U s) = standard_result U s ->
               standard_result U (standard_result U s) = standard_result U s)
    by (apply standard_result_fixed; exact HU).
  split; [exact H1|].
  intros Hs; apply H1, (unaccented_plain HU), (standard_result_ascii_plain HU Hs).
Qed.

Lemma standard_idempotent_on_unaccented_witness :
  normalize ucd_excerpt (normalize ucd_excerpt (py "Tag Heuer Monaco Cal.2") (py "standard"))
            (py "standard")
  = normalize ucd_excerpt (py "Tag Heuer Monaco Cal.2") (py "standard").
Proof.
  apply (proj1 (@standard_idempotent_on_unaccented ucd_excerpt
                  (py "Tag Heuer Monaco Cal.2") excerpt_facts)).
  vm_compute; reflexivity.
Defined.

(** C2, as stated, fails: the trade mark sign decomposes into the
    capital letters "TM" after the lower-casing, and a second pass
    lowers them. *)
Lemma standard_not_idempotent :
  normalize ucd_excerpt (py "™") (py "standard") = py "TM"
  /\ normalize ucd_excerpt (py "TM") (py "standard") = py "tm"
  /\ ~ (forall U : UnicodeData, UnicodeFacts U -> forall s : str,
          normalize U (normalize U s (py "standard")) (py "standard")
          = normalize U s (py "standard")).
Proof.
  split; [vm_compute; reflexivity | split; [vm_compute; reflexivity|]].
  intros H; specialize (H ucd_excerpt excerpt_facts (py "™")).
  vm_compute in H; discriminate.
Qed.

(** The same in every database with the assumed entries. *)
Lemma trade_mark_twice (U : UnicodeData) :
  UnicodeFacts U ->
  normalize U (py "™") (py "standard") = py "TM"
  /\ normalize U (py "TM") (py "standard") = py "tm".
Proof.
  intros HU.
  rewrite !(normalize_listed HU) by (apply Listed_forallb; vm_compute; reflexivity).
  split; vm_compute; reflexivity.
Qed.

(** ** A word of its own *)

Section WordIn.

Variable U : UnicodeData.

Local Abbreviation nonspace := (Forall (fun c => isspace U c = false)).

Lemma fence_rev_snoc pre c : isspace U c = true -> fence U (rev (pre ++ [c])).
Proof. intros H; rewrite rev_app_distr; exact H. Qed.

Lemma fence_rev_inv pre :
  fence U (rev pre) -> pre = [] \/ exists p c, pre = p ++ [c] /\ isspace U c = true.
Proof.
  intros H; destruct (rev pre) as [|c q] eqn:E.
  - left; apply (f_equal (@rev char)) in E; rewrite rev_involutive in E; exact E.
  - right; exists (rev q), c; split; [|exact H].
    apply (f_equal (@rev char)) in E; rewrite rev_involutive in E; exact E.
Qed.

(** The words of a split stand in the text as words of their own. *)
Lemma split_from_word_in w s : forall word before,
  nonspace word -> fence U (rev before) ->
  In w (split_from U word s) ->
  word_in U w (before ++ rev word ++ s).
Proof.
  induction s as [|c tl IH]; intros word before Hw Hb Hin; cbn [split_from] in Hin.
  - destruct word as [|x word']; [contradiction|].
    destruct Hin as [<-|[]].
    exists before, []; repeat split; auto.
    + apply rev_cons_not_nil.
    + apply Forall_rev; exact Hw.
  - destruct (isspace U c) eqn:Ec.
    + assert (Hnext : In w (split_from U [] tl) ->
                      word_in U w (before ++ rev word ++ c :: tl)).
      { intros H.
        specialize (IH [] (before ++ rev word ++ [c])).
        cbn [rev app] in IH.
        replace (before ++ rev word ++ c :: tl)
          with ((before ++ rev word ++ [c]) ++ tl)
          by (rewrite <- !app_assoc; reflexivity).
        apply IH; [constructor | | exact H].
        rewrite !app_assoc; apply fence_rev_snoc; exact Ec. }
      destruct word as [|x word']; [exact (Hnext Hin)|].
      destruct Hin as [<-|Hin]; [|exact (Hnext Hin)].
      exists before, (c :: tl); repeat split; auto.
      * apply rev_cons_not_nil.
      * apply Forall_rev; exact Hw.
    + specialize (IH (c :: word) before).
      cbn [rev] in IH; rewrite <- app_assoc in IH; apply IH; auto.
Qed.

Lemma split_word_in w s : In w (split U s) -> word_in U w s.
Proof.
  intros H.
  apply (@split_from_word_in w s [] []); [constructor | exact I | exact H].
Qed.

(** White space at the end of a text closes its last word. *)
Lemma split_from_snoc p : forall word c x,
  isspace U c = true ->
  split_from U word ((p ++ [c]) ++ x) = split_from U word (p ++ [c]) ++ split U x.
Proof.
  induction p as [|a p IH]; intros word c x Hc.
  - cbn [app split_from]; rewrite Hc.
    destruct word; reflexivity.
  - cbn [app split_from].
    destruct (isspace U a); [|apply IH; exact Hc].
    destruct word; cbn [app]; rewrite IH by exact Hc; reflexivity.
Qed.

Lemma split_app_fence pre x :
  fence U (rev pre) -> split U (pre ++ x) = split U pre ++ split U x.
Proof.
  intros H; apply fence_rev_inv in H; destruct H as [-> | (p & c & -> & Hc)];
    [reflexivity|].
  apply split_from_snoc; exact Hc.
Qed.

(** A word of its own is among the words of the split. *)
Lemma word_in_split w s : word_in U w s -> In w (split U s).
Proof.
  intros (pre & post & -> & Hw & Hpre & Hpost).
  rewrite split_app_fence by exact Hpre; apply in_or_app; right.
  destruct post as [|c post].
  - rewrite app_nil_r, split_word_end by exact Hw; left; reflexivity.
  - rewrite split_word_space by assumption; left; reflexivity.
Qed.

End WordIn.

(** ** Matches do not cross a character the pattern rejects *)

Section Barrier.

Variable word : char -> bool.
Variable q : char -> bool.
Variable r : regex.
Hypothesis r_accepts : accepts q r.
Variable b : char.
Hypothesis b_rejected : q b = false.

Lemma match_inside prev A B k :
  In k (ends word r prev (A ++ b :: B)) -> (k <= length A)%nat.
Proof.
  intros H; eapply ends_accepts in H; [|exact r_accepts]; destruct H as [_ H].
  destruct (Nat.le_gt_cases k (length A)) as [Hle|Hgt]; [exact Hle|exfalso].
  rewrite firstn_app in H; apply Forall_app in H; destruct H as [_ H].
  replace (k - length A)%nat with (S (k - length A - 1)) in H by lia.
  cbn [firstn] in H; inversion H as [|? ? Hb _]; subst.
  rewrite b_rejected in Hb; discriminate.
Qed.

Lemma scan_at_barrier prev B :
  scan word r 0 prev (b :: B) = Gap b :: scan word r 0 (Some b) B.
Proof.
  rewrite scan_step.
  destruct (match_at word r prev (b :: B)) as [[|k]|] eqn:E; try reflexivity.
  apply match_at_In in E; apply (@match_inside prev [] B) in E; cbn in E; lia.
Qed.

(** The scan of a text up to a rejected character does not depend on
    what follows it, and goes on right after it. *)
Lemma scan_barrier B n : forall A prev,
  (length A <= n)%nat ->
  exists X, scan word r 0 prev (A ++ b :: B) = X ++ Gap b :: scan word r 0 (Some b) B.
Proof.
  induction n as [|n IH]; intros A prev Hlen.
  - destruct A; [|cbn in Hlen; lia].
    exists []; apply scan_at_barrier.
  - destruct A as [|a A]; [exists []; apply scan_at_barrier|].
    cbn [app]; rewrite scan_step.
    destruct (match_at word r prev (a :: A ++ b :: B)) as [[|k]|] eqn:E.
    + destruct (IH A (Some a)) as [X HX]; [cbn in Hlen; lia|].
      exists (Gap a :: X); rewrite HX; reflexivity.
    + apply match_at_In in E.
      apply (@match_inside prev (a :: A) B) in E.
      destruct (IH (skipn (S k) (a :: A))
                   (prev_at prev (a :: A ++ b :: B) (S k))) as [X HX].
      { rewrite length_skipn; cbn in Hlen |- *; lia. }
      exists (Hit (firstn (S k) (a :: A ++ b :: B)) :: X).
      assert (Hs : skipn (S k) (a :: A ++ b :: B) = skipn (S k) (a :: A) ++ b :: B).
      { change (a :: A ++ b :: B) with ((a :: A) ++ b :: B).
        rewrite skipn_app.
        replace (S k - length (a :: A))%nat with O by lia; reflexivity. }
      rewrite Hs, HX; reflexivity.
    + destruct (IH A (Some a)) as [X HX]; [cbn in Hlen; lia|].
      exists (Gap a :: X); rewrite HX; reflexivity.
Qed.

Variable q' : char -> bool.
Hypothesis r_needs : needs q' r.

(** Where, besides, no character is of the kind the pattern needs,
    the scan finds nothing. *)
Lemma scan_barrier_quiet B A : forall prev,
  Forall (fun c => q' c = false) A ->
  scan word r 0 prev (A ++ b :: B)
  = map Gap A ++ Gap b :: scan word r 0 (Some b) B.
Proof.
  induction A as [|a A IH]; intros prev H; [apply scan_at_barrier|].
  assert (HA : Forall (fun c => q' c = false) A) by (inversion H; assumption).
  cbn [app map]; rewrite scan_step.
  destruct (match_at word r prev (a :: A ++ b :: B)) as [[|k]|] eqn:E;
    try (rewrite IH by exact HA; reflexivity).
  exfalso; apply match_at_In in E.
  pose proof (@match_inside prev (a :: A) B _ E) as Hk.
  eapply ends_needs in E; [|exact r_needs].
  change (a :: A ++ b :: B) with ((a :: A) ++ b :: B) in E.
  rewrite firstn_app in E.
  replace (S k - length (a :: A))%nat with O in E by lia.
  rewrite firstn_O, app_nil_r in E.
  apply Exists_exists in E; destruct E as (x & Hx & Hq).
  apply In_firstn in Hx; rewrite Forall_forall in H.
  rewrite (H x Hx) in Hq; discriminate.
Qed.

End Barrier.

(** ** A preserved term through the stages *)

Section Survival.

Variable U : UnicodeData.
Hypothesis HU : UnicodeFacts U.

Local Abbreviation Az := (Forall (fun c => az c = true)).

Lemma az_plain c : az c = true -> plain c = true.
Proof. unfold az, plain, in_range; cases_N. Qed.

Lemma az_not_space c : az c = true -> isspace U c = false.
Proof.
  intros H; rewrite (listed_isspace HU) by (apply az_listed; exact H).
  revert H; cbn [isspace ucd_excerpt]; unfold az, in_range; cases_N.
Qed.

Lemma az_word c : az c = true -> is_word U c = true.
Proof.
  intros H; unfold is_word.
  rewrite (listed_isalnum HU) by (apply az_listed; exact H).
  revert H; cbn [isalnum ucd_excerpt]; unfold az, in_range; cases_N.
Qed.

Lemma az_clean_word t : t <> [] -> Az t -> clean_word U t.
Proof.
  intros Hne H; split; [exact Hne|].
  eapply Forall_impl; [|exact H]; exact az_not_space.
Qed.

(** *** Lower-casing *)

Lemma lower_from_sigma w : forall before after,
  In capital_sigma w ->
  Exists (fun c => c = 0x3C2%N \/ c = 0x3C3%N) (lower_from U before w after).
Proof.
  induction w as [|c tl IH]; intros before after Hin; [contradiction|].
  cbn [lower_from]; apply Exists_app.
  destruct (N.eq_dec c capital_sigma) as [->|Hne].
  - left; unfold lower_char; cbn.
    destruct (final_sigma U before (tl ++ after)); constructor; auto.
  - right; apply IH; destruct Hin as [->|Hin]; [contradiction | exact Hin].
Qed.

(** A word whose lower-case form is made of [a-z] is lowered the same
    way wherever it stands. *)
Lemma lower_from_word w before after :
  Az (lower U w) -> lower_from U before w after = lower U w.
Proof.
  intros H.
  assert (Hs : Forall (fun c => c <> capital_sigma) w).
  { apply Forall_forall; intros c Hc ->.
    apply (lower_from_sigma w [] []) in Hc.
    apply Exists_exists in Hc; destruct Hc as (x & Hx & Hv).
    rewrite Forall_forall in H; specialize (H x Hx).
    destruct Hv as [-> | ->]; discriminate. }
  unfold lower; rewrite !lower_from_no_sigma by exact Hs; reflexivity.
Qed.

Lemma lower_char_space before c after :
  isspace U c = true -> lower_char U before c after = [c].
Proof.
  intros H; destruct (space_lower HU c H) as [Hl Hs].
  unfold lower_char; destruct (char_eqb c capital_sigma) eqn:E; [|exact Hl].
  apply char_eqb_eq in E; contradiction.
Qed.

Lemma lower_from_fence s before after :
  fence U s -> fence U (lower_from U before s after).
Proof.
  destruct s as [|c tl]; [auto|]; cbn [fence lower_from]; intros H.
  rewrite lower_char_space by exact H; exact H.
Qed.

Lemma lower_from_fence_rev s before after :
  fence U (rev s) -> fence U (rev (lower_from U before s after)).
Proof.
  intros H; apply fence_rev_inv in H; destruct H as [-> | (p & c & -> & Hc)];
    [exact I|].
  rewrite lower_from_app; cbn [lower_from].
  rewrite lower_char_space, app_nil_r by exact Hc.
  apply fence_rev_snoc; exact Hc.
Qed.

(** *** Decomposition and the removal of the marks *)

Lemma unmark_app s t : unmark U (s ++ t) = unmark U s ++ unmark U t.
Proof.
  unfold unmark, strip_combining; rewrite flat_map_app, filter_app; reflexivity.
Qed.

Lemma unmark_space c :
  isspace U c = true -> exists c', unmark U [c] = [c'] /\ isspace U c' = true.
Proof.
  intros H; destruct (space_decomposition HU c H) as (c' & Hd & Hs & Hc).
  exists c'; split; [|exact Hs].
  unfold unmark, strip_combining; cbn [flat_map]; rewrite Hd, app_nil_r.
  cbn [filter]; rewrite Hc; reflexivity.
Qed.

Lemma unmark_fence s : fence U s -> fence U (unmark U s).
Proof.
  destruct s as [|c tl]; [auto|]; cbn [fence]; intros H.
  destruct (unmark_space c H) as (c' & Hu & Hs).
  change (c :: tl) with ([c] ++ tl); rewrite unmark_app, Hu; exact Hs.
Qed.

Lemma unmark_fence_rev s : fence U (rev s) -> fence U (rev (unmark U s)).
Proof.
  intros H; apply fence_rev_inv in H; destruct H as [-> | (p & c & -> & Hc)];
    [exact I|].
  destruct (unmark_space c Hc) as (c' & Hu & Hs).
  rewrite unmark_app, Hu; apply fence_rev_snoc; exact Hs.
Qed.

Lemma unmark_az t : Az t -> unmark U t = t.
Proof.
  intros H; induction H as [|c tl Hc Htl IH]; [reflexivity|].
  change (c :: tl) with ([c] ++ tl); rewrite unmark_app, IH; f_equal.
  destruct (plain_entries HU c (az_plain c Hc)) as (_ & Hd & Hm).
  unfold unmark, strip_combining; cbn [flat_map]; rewrite Hd.
  cbn [app filter]; rewrite Hm; reflexivity.
Qed.

(** A word whose lower-case form is a non-empty word of [a-z] is, in
    that form, a word of the unaccented text. *)
Lemma unaccented_word_in w s :
  word_in U w s -> lower U w <> [] -> Az (lower U w) ->
  word_in U (lower U w) (unaccented U s).
Proof.
  intros (pre & post & -> & Hw & Hpre & Hpost) Hne Haz.
  rewrite unaccented_eq; fold (unmark U (lower U (pre ++ w ++ post))).
  unfold lower at 2; rewrite !lower_from_app, (lower_from_word w) by exact Haz.
  rewrite !unmark_app, (unmark_az Haz).
  eexists; eexists; split; [reflexivity|].
  split; [apply az_clean_word; assumption|].
  split; [apply unmark_fence_rev, lower_from_fence_rev; exact Hpre|].
  apply unmark_fence, lower_from_fence; exact Hpost.
Qed.

(** *** The abbreviations *)

Lemma model_pattern_accepts : accepts abbreviation_char model_pattern.
Proof.
  unfold abbreviation_char; cbn [accepts model_pattern Lit].
  repeat split; intros c ->; rewrite ?orb_true_r; reflexivity.
Qed.

Lemma model_pattern_needs : needs (char_eqb dot) model_pattern.
Proof. cbn [needs model_pattern Lit]; auto. Qed.

Lemma space_not_abbreviation c : isspace U c = true -> abbreviation_char c = false.
Proof.
  intros H; destruct (abbreviation_char c) eqn:E; [exfalso|reflexivity].
  assert (Hl : listed c = true).
  { apply listed_ascii; revert E; unfold abbreviation_char, az, d09, in_range, dot.
    unfold char_eqb; cases_N. }
  rewrite (listed_isspace HU) in H by exact Hl.
  revert E H; unfold abbreviation_char, az, d09, in_range, dot, char_eqb.
  cbn [isspace ucd_excerpt]; unfold in_range; cases_N.
Qed.

Lemma az_no_dot t : Az t -> Forall (fun c => char_eqb dot c = false) t.
Proof.
  apply Forall_impl; intros c; unfold az, in_range, char_eqb, dot; cases_N.
Qed.

Lemma emit_app repl X Y : emit repl (X ++ Y) = emit repl X ++ emit repl Y.
Proof. apply flat_map_app. Qed.

Lemma emit_gaps repl t : emit repl (map Gap t) = t.
Proof.
  induction t as [|c tl IH]; [reflexivity|].
  cbn [map emit flat_map app]; fold (emit repl (map Gap tl)); rewrite IH; reflexivity.
Qed.

(** What is emitted for a text that ends with white space is followed
    by what is emitted for the rest. *)
Lemma model_pattern_before pre rest prev :
  fence U (rev pre) ->
  exists P' prev',
    emit drop_dots (scan (is_word U) model_pattern 0 prev (pre ++ rest))
    = P' ++ emit drop_dots (scan (is_word U) model_pattern 0 prev' rest)
    /\ fence U (rev P').
Proof.
  intros H; apply fence_rev_inv in H; destruct H as [-> | (p & c & -> & Hc)].
  - exists [], prev; split; [reflexivity | exact I].
  - destruct (@scan_barrier (is_word U) abbreviation_char model_pattern
                model_pattern_accepts c (space_not_abbreviation c Hc)
                rest (length p) p prev (le_n _)) as [X HX].
    rewrite <- app_assoc; cbn [app]; rewrite HX.
    exists (emit drop_dots X ++ [c]), (Some c); split.
    + rewrite emit_app, <- app_assoc; reflexivity.
    + apply fence_rev_snoc; exact Hc.
Qed.

(** A word of [a-z] in front of white space, or of the end, is emitted
    as it is. *)
Lemma model_pattern_word t post prev :
  Az t -> fence U post ->
  exists Q',
    emit drop_dots (scan (is_word U) model_pattern 0 prev (t ++ post)) = t ++ Q'
    /\ fence U Q'.
Proof.
  intros Ht Hpost; destruct post as [|c post].
  - exists []; split; [|exact I].
    rewrite (@scan_no_match (is_word U) (char_eqb dot) model_pattern (t ++ []) prev
               model_pattern_needs).
    + rewrite emit_gaps; reflexivity.
    + rewrite app_nil_r; apply az_no_dot; exact Ht.
  - cbn [fence] in Hpost.
    rewrite (@scan_barrier_quiet (is_word U) abbreviation_char model_pattern
               model_pattern_accepts c (space_not_abbreviation c Hpost)
               (char_eqb dot) model_pattern_needs post t prev (az_no_dot Ht)).
    rewrite emit_app, emit_gaps.
    eexists; split; [reflexivity | exact Hpost].
Qed.

Lemma model_pattern_word_in t s :
  Az t -> word_in U t s ->
  word_in U t (re_sub (is_word U) model_pattern drop_dots s).
Proof.
  intros Ht (pre & post & -> & Hw & Hpre & Hpost).
  unfold re_sub; fold (emit drop_dots (scan (is_word U) model_pattern 0 None
                                            (pre ++ t ++ post))).
  destruct (model_pattern_before pre (t ++ post) None Hpre)
    as (P' & prev' & -> & HP').
  destruct (model_pattern_word post prev' Ht Hpost) as (Q' & -> & HQ').
  exists P', Q'; auto.
Qed.

(** *** The special characters *)

Lemma special_word_in t s :
  Az t -> word_in U t s ->
  word_in U t (re_sub (is_word U) (special_pattern U) (fun _ => [space]) s).
Proof.
  intros Ht (pre & post & -> & Hw & Hpre & Hpost).
  unfold special_pattern; rewrite re_sub_replace, !map_app.
  set (f := fun c => if negb (is_word U c || isspace U c) then space else c).
  assert (Hsp : forall c, isspace U c = true -> f c = c).
  { intros c Hc; unfold f; rewrite Hc, orb_true_r; reflexivity. }
  assert (Hf : forall x, fence U x -> fence U (map f x)).
  { intros [|c x]; [auto|]; cbn [fence map]; intros Hc; rewrite Hsp; exact Hc. }
  exists (map f pre), (map f post); split; [|split; [exact Hw | split]].
  - f_equal; f_equal.
    transitivity (map (fun c : char => c) t); [|apply map_id].
    apply map_ext_in; intros c Hc; unfold f; rewrite Forall_forall in Ht.
    rewrite (az_word c (Ht c Hc)); reflexivity.
  - rewrite <- map_rev; apply Hf; exact Hpre.
  - apply Hf; exact Hpost.
Qed.

Lemma cleaned_word_in w s :
  word_in U w s -> lower U w <> [] -> Az (lower U w) ->
  word_in U (lower U w) (cleaned U s).
Proof.
  intros Hw Hne Haz; unfold cleaned; cbv zeta.
  apply special_word_in, model_pattern_word_in, unaccented_word_in; assumption.
Qed.

(** *** The loop *)

Lemma lower_az t : Az t -> lower U t = t.
Proof.
  intros H; rewrite lower_no_sigma.
  - apply flat_map_singleton; eapply Forall_impl; [|exact H].
    intros c Hc; apply (plain_entries HU c (az_plain c Hc)).
  - eapply Forall_impl; [|exact H].
    intros c Hc; apply listed_not_sigma, az_listed; exact Hc.
Qed.

Lemma preserved_terms_az :
  Forall (fun t => t <> [] /\ Az t) preserved_terms.
Proof.
  assert (H : forallb (fun t => negb (str_eqb t []) && forallb az t) preserved_terms
              = true) by (vm_compute; reflexivity).
  apply Forall_forall; intros t Ht.
  rewrite forallb_forall in H; specialize (H t Ht).
  apply andb_true_iff in H; destruct H as [Hne Haz]; split.
  - intros ->; discriminate.
  - apply Forall_forall; apply forallb_forall; exact Haz.
Qed.

Lemma word_survives_standard s w term :
  In term preserved_terms -> In w (split U s) -> lower U w = term ->
  In term (split U (standard_result U s)).
Proof.
  intros Hterm Hw Hl.
  pose proof preserved_terms_az as Hp; rewrite Forall_forall in Hp.
  destruct (Hp term Hterm) as [Hne Haz].
  rewrite (standard_result_join HU).
  rewrite (split_join (space_isspace HU) (@filtered_words_clean U (cleaned U s))).
  apply filter_words_In; split.
  - apply word_in_split; rewrite <- Hl.
    apply cleaned_word_in; [apply split_word_in; exact Hw | |]; rewrite Hl; assumption.
  - apply keep_word_cases; right; left.
    rewrite (lower_az Haz); apply str_in_In; exact Hterm.
Qed.

End Survival.

(** C5: a preserved term that stands in the input as a word of its own,
    in any letter case, is a word of the standard-mode result. *)
Theorem preserved_term_survives (U : UnicodeData) (s w term : str) :
  UnicodeFacts U ->
  In term preserved_terms ->
  In w (split U s) ->
  lower U w = term ->
  In term (split U (normalize U s (py "standard"))).
Proof.
  intros HU Hterm Hw Hl; rewrite normalize_standard.
  eapply word_survives_standard; eassumption.
Qed.

Lemma preserved_term_survives_witness :
  In (py "submariner")
     (split ucd_excerpt
            (normalize ucd_excerpt (py "The ROLEX SubMariner ref. 116610") (py "standard"))).
Proof.
  apply (@preserved_term_survives ucd_excerpt
           (py "The ROLEX SubMariner ref. 116610") (py "SubMariner") (py "submariner")
           excerpt_facts).
  - vm_compute; auto 40.
  - vm_compute; auto 10.
  - vm_compute; reflexivity.
Defined.

(** ** Further examples *)

(** The other scenarios of the specification and some of the sample
    brands of the source file, in every database with the assumed
    entries. *)

Ltac by_excerpt HU :=
  rewrite ?(normalize_listed HU) by (apply Listed_forallb; vm_compute; reflexivity);
  repeat split; vm_compute; reflexivity.

Example tag_heuer_monaco (U : UnicodeData) :
  UnicodeFacts U ->
  normalize U (py "Tag Heuer Monaco Cal.2") (py "standard") = py "tag heuer monaco cal2"
  /\ normalize U (py "Tag Heuer Monaco Cal.2") (py "alphanumeric") = py "tagheuermonacocal2".
Proof. intros HU; by_excerpt HU. Qed.

Example iwc_schaffhausen (U : UnicodeData) :
  UnicodeFacts U ->
  normalize U (py "IWC Schaffhausen Original") (py "standard") = py "iwc schaffhausen"
  /\ normalize U (py "IWC Schaffhausen Original") (py "alphanumeric") = py "iwcschaffhausen".
Proof. intros HU; by_excerpt HU. Qed.

Example omega_speedmaster (U : UnicodeData) :
  UnicodeFacts U ->
  normalize U (py "Omega Speedmaster Moonwatch Professional") (py "standard")
  = py "omega speedmaster moonwatch"
  /\ normalize U (py "Omega Speedmaster Moonwatch Professional") (py "alphanumeric")
     = py "omegaspeedmastermoonwatch".
Proof. intros HU; by_excerpt HU. Qed.

Example lange_soehne (U : UnicodeData) :
  UnicodeFacts U ->
  normalize U (py "A. Lange & Söhne Datograph") (py "standard")
  = py "a lange sohne datograph"
  /\ normalize U (py "A. Lange & Söhne Datograph") (py "alphanumeric")
     = py "alangesohnedatograph".
Proof. intros HU; by_excerpt HU. Qed.

Example piaget_535 (U : UnicodeData) :
  UnicodeFacts U ->
  normalize U (py "Piaget PS 535 Chronographe") (py "standard") = py "piaget ps 535"
  /\ model_numbers U (cleaned U (py "Piaget PS 535 Chronographe")) = [py "535"].
Proof.
  intros HU.
  assert (H : Listed (py "Piaget PS 535 Chronographe"))
    by (apply Listed_forallb; vm_compute; reflexivity).
  destruct (cleaned_listed HU H) as [-> H1].
  rewrite (model_numbers_listed HU H1).
  by_excerpt HU.
Qed.

Example jaeger_lecoultre (U : UnicodeData) :
  UnicodeFacts U ->
  normalize U (py "Jaeger-LeCoultre Master Control") (py "standard")
  = py "jaeger lecoultre master control".
Proof. intros HU; by_excerpt HU. Qed.

Example empty_brand (U : UnicodeData) (mode : pyobj) :
  process_brand_for_search U (PyStr (py "")) mode = Returned (py "")
  /\ process_brand_for_search U PyNone mode = Returned (py "").
Proof. split; reflexivity. Qed.

(** A trade mark sign in alphanumeric mode: the capitals it leaves are
    deleted. *)
Example trade_mark_alphanumeric (U : UnicodeData) :
  UnicodeFacts U ->
  normalize U (py "Rolex™") (py "standard") = py "rolexTM"
  /\ normalize U (py "Rolex™") (py "alphanumeric") = py "rolex".
Proof. intros HU; by_excerpt HU. Qed.

(** ** No pattern of the program matches the empty string *)

Lemma ends_not_empty word r prev s :
  needs (fun _ => true) r -> ~ In 0%nat (ends word r prev s).
Proof.
  intros Hr H; eapply ends_needs in H; [|exact Hr].
  cbn [firstn] in H; inversion H.
Qed.

Lemma patterns_not_empty (U : UnicodeData) :
  needs (fun _ => true) model_pattern
  /\ needs (fun _ => true) (special_pattern U)
  /\ needs (fun _ => true) (model_number_pattern U)
  /\ needs (fun _ => true) (spaces_pattern U)
  /\ needs (fun _ => true) non_alnum_pattern.
Proof.
  cbn [needs model_pattern special_pattern model_number_pattern spaces_pattern
       non_alnum_pattern Lit]; auto 10.
Qed.

(** ** Words that match the model-number pattern *)

Lemma run_app p A : forall B,
  Forall (fun c => p c = true) A -> run p (A ++ B) = (length A + run p B)%nat.
Proof.
  intros B H; induction H as [|c tl Hc Htl IH]; [reflexivity|].
  cbn [app run length Nat.add]; rewrite Hc, IH; reflexivity.
Qed.

Lemma run_le p s : (run p s <= length s)%nat.
Proof.
  induction s as [|c tl IH]; [apply le_n|].
  cbn [run length]; destruct (p c); lia.
Qed.

Lemma run_Forall p s : Forall (fun c => p c = true) s -> run p s = length s.
Proof.
  intros H; rewrite <- (app_nil_r s) at 1; rewrite run_app by exact H.
  cbn [run]; lia.
Qed.

Lemma countdown_head n lo :
  (lo <= n)%nat -> hd_error (countdown n lo) = Some n.
Proof.
  intros H; destruct n as [|n]; cbn [countdown].
  - replace lo with O by lia; reflexivity.
  - destruct (Nat.leb_spec lo (S n)); [reflexivity | lia].
Qed.

Section FirstMatch.

Variable word : char -> bool.

Lemma match_at_Seq r1 r2 prev s n1 n2 :
  match_at word r1 prev s = Some n1 ->
  match_at word r2 (prev_at prev s n1) (skipn n1 s) = Some n2 ->
  match_at word (Seq r1 r2) prev s = Some (n1 + n2)%nat.
Proof.
  unfold match_at; cbn [ends]; intros H1 H2.
  destruct (ends word r1 prev s) as [|x rest]; [discriminate|].
  injection H1 as ->; cbn [flat_map].
  destruct (ends word r2 (prev_at prev s n1) (skipn n1 s)) as [|y ys];
    [discriminate|].
  injection H2 as ->; reflexivity.
Qed.

Lemma match_at_Star p prev s : match_at word (Star p) prev s = Some (run p s).
Proof. apply countdown_head, Nat.le_0_l. Qed.

Lemma match_at_Plus p prev s :
  (1 <= run p s)%nat -> match_at word (Plus p) prev s = Some (run p s).
Proof. apply countdown_head. Qed.

Lemma match_at_Bnd prev s :
  at_boundary word prev s = true -> match_at word Bnd prev s = Some 0%nat.
Proof. unfold match_at; cbn [ends]; intros ->; reflexivity. Qed.

(** After at least one character the character on the left is the last
    one taken. *)
Lemma prev_at_wordy prev s n :
  Forall (fun c => word c = true) (firstn n s) ->
  is_word_opt word prev = true \/ (0 < n <= length s)%nat ->
  is_word_opt word (prev_at prev s n) = true.
Proof.
  revert prev n; induction s as [|c tl IH]; intros prev n H Hn.
  - unfold prev_at; rewrite firstn_nil; cbn [map last].
    destruct Hn as [Hn|Hn]; [exact Hn | cbn in Hn; lia].
  - destruct n as [|n]; [destruct Hn as [Hn|Hn]; [exact Hn | lia]|].
    rewrite prev_at_S; cbn [firstn] in H; inversion H as [|? ? Hc Htl]; subst.
    apply IH; [exact Htl | left; exact Hc].
Qed.

End FirstMatch.

Section ModelNumberWords.

Variable U : UnicodeData.
Hypothesis HU : UnicodeFacts U.
Hypothesis HD : DigitFacts U.

Lemma az09_listed c : az09 c = true -> listed c = true.
Proof.
  unfold az09, az, d09, in_range; intros H; apply listed_ascii; revert H; cases_N.
Qed.

Lemma az09_plain c : az09 c = true -> plain c = true.
Proof. unfold az09, az, d09, plain, in_range; cases_N. Qed.

Lemma az09_word c : az09 c = true -> is_word U c = true.
Proof.
  intros H; unfold is_word.
  rewrite (listed_isalnum HU) by (apply az09_listed; exact H).
  revert H; cbn [isalnum ucd_excerpt]; unfold az09, az, d09, in_range; cases_N.
Qed.

Lemma decimal_word c : isdecimal U c = true -> is_word U c = true.
Proof. intros H; unfold is_word; rewrite (decimal_alnum HD c H); reflexivity. Qed.

Lemma decimal_not_az c : isdecimal U c = true -> az c = false.
Proof.
  intros H; destruct (az c) eqn:E; [|reflexivity].
  rewrite (az_not_decimal HU c E) in H; discriminate.
Qed.

Lemma model_number_char_word c : model_number_char U c = true -> is_word U c = true.
Proof.
  unfold model_number_char; rewrite !orb_true_iff; intros [[H|H]|H].
  - apply (az_word HU); exact H.
  - apply decimal_word; exact H.
  - apply az09_word; exact H.
Qed.

Lemma space_not_model_number_char c :
  isspace U c = true -> model_number_char U c = false.
Proof.
  intros H; destruct (model_number_char U c) eqn:E; [|reflexivity].
  apply model_number_char_word in E.
  rewrite (space_not_word HD c H) in E; discriminate.
Qed.

Lemma model_number_pattern_accepts :
  accepts (model_number_char U) (model_number_pattern U).
Proof.
  unfold model_number_char; cbn [accepts model_number_pattern].
  repeat split; intros c ->; rewrite ?orb_true_r; reflexivity.
Qed.

Lemma fence_not p s :
  (forall c, isspace U c = true -> p c = false) -> fence U s -> run p s = 0%nat.
Proof.
  intros Hp; destruct s as [|c tl]; [reflexivity|]; cbn [fence run]; intros H.
  rewrite (Hp c H); reflexivity.
Qed.

Lemma fence_boundary prev post :
  is_word_opt (is_word U) prev = true -> fence U post ->
  at_boundary (is_word U) prev post = true.
Proof.
  intros Hp Hpost; unfold at_boundary; rewrite Hp.
  destruct post as [|c tl]; [reflexivity|]; cbn [hd_error is_word_opt fence] in *.
  rewrite (space_not_word HD c Hpost); reflexivity.
Qed.

(** The first match the pattern finds at the start of such a word is
    the whole word. *)
Lemma match_at_model_number_word prev w post :
  is_word_opt (is_word U) prev = false ->
  model_number_word U w -> fence U post ->
  match_at (is_word U) (model_number_pattern U) prev (w ++ post) = Some (length w).
Proof.
  intros Hprev (L & D & R & -> & HL & HDne & HDd & HR) Hpost.
  destruct D as [|d D]; [contradiction|].
  assert (Hd : isdecimal U d = true) by (inversion HDd; assumption).
  set (k := run (isdecimal U) (R ++ post)).
  assert (Hk : (k <= length R)%nat).
  { unfold k. destruct (Nat.le_gt_cases (run (isdecimal U) (R ++ post)) (length R))
      as [Hle|Hgt]; [exact Hle | exfalso].
    destruct (run_firstn (isdecimal U) (R ++ post) Hgt) as [_ Hf].
    rewrite firstn_app in Hf; apply Forall_app in Hf; destruct Hf as [_ Hf].
    replace (S (length R) - length R)%nat with 1%nat in Hf by lia.
    destruct post as [|c post]; [cbn in Hgt; rewrite app_nil_r in Hgt|].
    - pose proof (run_le (isdecimal U) R); lia.
    - cbn [firstn fence] in Hf, Hpost; inversion Hf as [|? ? Hc _]; subst.
      apply decimal_word in Hc.
      rewrite (space_not_word HD c Hpost) in Hc; discriminate. }
  set (s := (L ++ (d :: D) ++ R) ++ post).
  assert (Es : s = L ++ (d :: D) ++ R ++ post)
    by (unfold s; rewrite <- !app_assoc; reflexivity).
  (* the characters of the word are word characters *)
  assert (Hw : Forall (fun c => is_word U c = true) (L ++ (d :: D) ++ R)).
  { apply Forall_app; split; [|apply Forall_app; split].
    - eapply Forall_impl; [|exact HL]; exact (az_word HU).
    - eapply Forall_impl; [|exact HDd]; exact decimal_word.
    - eapply Forall_impl; [|exact HR]; exact az09_word. }
  (* \b *)
  assert (M0 : match_at (is_word U) Bnd prev s = Some 0%nat).
  { apply match_at_Bnd; unfold at_boundary; rewrite Hprev.
    assert (Hh : exists c, hd_error s = Some c /\ is_word U c = true).
    { rewrite Es; destruct L as [|l L].
      - exists d; split; [reflexivity | apply decimal_word; exact Hd].
      - exists l; split; [reflexivity|].
        inversion HL; subst; apply (az_word HU); assumption. }
    destruct Hh as (c & -> & Hc); cbn; rewrite Hc; reflexivity. }
  (* [a-z]* *)
  assert (R1 : run az s = length L).
  { rewrite Es, run_app by exact HL; cbn [app run].
    rewrite (decimal_not_az d Hd); lia. }
  (* \d+ *)
  assert (R2 : run (isdecimal U) (skipn (length L) s) = (length (d :: D) + k)%nat).
  { rewrite Es, skipn_app, Nat.sub_diag, skipn_all; cbn [skipn app].
    change (d :: D ++ R ++ post) with ((d :: D) ++ R ++ post).
    rewrite run_app by exact HDd; reflexivity. }
  (* [a-z0-9]* *)
  assert (E3 : skipn (length (d :: D) + k) (skipn (length L) s) = skipn k R ++ post).
  { rewrite Es, skipn_app, Nat.sub_diag, skipn_all; cbn [skipn app].
    change (d :: D ++ R ++ post) with ((d :: D) ++ R ++ post).
    rewrite skipn_app. replace (length (d :: D) + k - length (d :: D))%nat with k by lia.
    rewrite (@skipn_all2 char (length (d :: D) + k) (d :: D)) by lia; cbn [app].
    rewrite skipn_app. replace (k - length R)%nat with O by lia; reflexivity. }
  assert (R3 : run az09 (skipn k R ++ post) = (length R - k)%nat).
  { rewrite run_app by (apply Forall_skipn; exact HR).
    rewrite length_skipn, (fence_not az09); [lia | | exact Hpost].
    intros c Hc; destruct (az09 c) eqn:E; [|reflexivity].
    apply az09_word in E; rewrite (space_not_word HD c Hc) in E; discriminate. }
  assert (E4 : skipn (length R - k) (skipn k R ++ post) = post).
  { rewrite skipn_app, length_skipn, Nat.sub_diag.
    rewrite skipn_all2 by (rewrite length_skipn; lia); reflexivity. }
  replace (length (L ++ (d :: D) ++ R))
    with (0 + (length L + ((length (d :: D) + k) + ((length R - k) + 0))))%nat
    by (rewrite !length_app; lia).
  fold s; unfold model_number_pattern.
  apply match_at_Seq; [exact M0|].
  rewrite prev_at_0; cbn [skipn].
  apply match_at_Seq; [rewrite <- R1; apply match_at_Star|].
  apply match_at_Seq; [rewrite <- R2; apply match_at_Plus; rewrite R2; cbn; lia|].
  rewrite E3.
  apply match_at_Seq; [rewrite <- R3; apply match_at_Star|].
  rewrite E4.
  apply match_at_Bnd, fence_boundary; [|exact Hpost].
  (* the character on the left of the end is the last one of the word *)
  apply prev_at_wordy.
  - rewrite firstn_app, length_skipn, Nat.sub_diag, firstn_O, app_nil_r.
    apply Forall_firstn, Forall_skipn.
    eapply Forall_impl; [|exact HR]; exact az09_word.
  - left; apply prev_at_wordy.
    + rewrite Es, skipn_app, Nat.sub_diag, skipn_all; cbn [skipn app].
      change (d :: D ++ R ++ post) with ((d :: D) ++ R ++ post).
      rewrite firstn_app; apply Forall_app; split.
      * apply Forall_firstn; eapply Forall_impl; [|exact HDd]; exact decimal_word.
      * replace (length (d :: D) + k - length (d :: D))%nat with k by lia.
        destruct (run_firstn (isdecimal U) (R ++ post) (le_n k)) as [_ Hf].
        eapply Forall_impl; [|exact Hf]; exact decimal_word.
    + right; rewrite Es, length_skipn, !length_app; cbn [length]; lia.
Qed.

End ModelNumberWords.

Section ModelNumberWordsKept.

Variable U : UnicodeData.
Hypothesis HU : UnicodeFacts U.
Hypothesis HD : DigitFacts U.

Lemma model_number_word_not_nil w : model_number_word U w -> w <> [].
Proof.
  intros (L & D & R & -> & _ & HDne & _) E.
  apply app_eq_nil in E; destruct E as [_ E].
  apply app_eq_nil in E; destruct E as [E _]; contradiction.
Qed.

(** The scan, standing at the start of such a word, finds the word. *)
Lemma scan_model_number_word prev w post :
  is_word_opt (is_word U) prev = false ->
  model_number_word U w -> fence U post ->
  exists rest,
    scan (is_word U) (model_number_pattern U) 0 prev (w ++ post) = Hit w :: rest.
Proof.
  intros Hprev Hw Hpost.
  pose proof (@match_at_model_number_word U HU HD prev w post Hprev Hw Hpost) as M.
  destruct w as [|c w']; [exfalso; exact (model_number_word_not_nil Hw eq_refl)|].
  cbn [app] in *; rewrite scan_step, M; cbn [length].
  eexists; f_equal; f_equal.
  cbn [firstn]; f_equal.
  rewrite firstn_app, firstn_all, Nat.sub_diag, firstn_O; apply app_nil_r.
Qed.

(** A word of the text that matches the pattern as a whole is among
    the model numbers of the text. *)
Lemma model_number_word_found result w :
  word_in U w result -> model_number_word U w -> In w (model_numbers U result).
Proof.
  intros (pre & post & -> & _ & Hpre & Hpost) Hw.
  unfold model_numbers, re_findall; apply in_flat_map.
  exists (Hit w); split; [|left; reflexivity].
  apply fence_rev_inv in Hpre; destruct Hpre as [-> | (p & c & -> & Hc)].
  - destruct (@scan_model_number_word None w post eq_refl Hw Hpost) as [rest E].
    cbn [app]; rewrite E; left; reflexivity.
  - destruct (@scan_barrier (is_word U) (model_number_char U) (model_number_pattern U)
                (model_number_pattern_accepts U) c
                (space_not_model_number_char HU HD c Hc)
                (w ++ post) (length p) p None (le_n _)) as [X HX].
    rewrite <- app_assoc; cbn [app]; rewrite HX.
    destruct (@scan_model_number_word (Some c) w post
                (space_not_word HD c Hc) Hw Hpost) as [rest ->].
    apply in_or_app; right; right; left; reflexivity.
Qed.

Lemma lower_model_number_word w : model_number_word U w -> lower U w = w.
Proof.
  intros (L & D & R & -> & HL & _ & HDd & HR).
  assert (H : Forall (fun c => to_lower_full U c = [c] /\ c <> capital_sigma)
                     (L ++ D ++ R)).
  { apply Forall_app; split; [|apply Forall_app; split].
    - eapply Forall_impl; [|exact HL]; intros c Hc; split.
      + apply (plain_entries HU c (az_plain c Hc)).
      + apply listed_not_sigma, az_listed; exact Hc.
    - eapply Forall_impl; [|exact HDd]; intros c Hc; apply (decimal_lower HD c Hc).
    - eapply Forall_impl; [|exact HR]; intros c Hc; split.
      + apply (plain_entries HU c (az09_plain c Hc)).
      + apply listed_not_sigma, az09_listed; exact Hc. }
  rewrite lower_no_sigma by (eapply Forall_impl; [|exact H]; intros c Hc; apply Hc).
  apply flat_map_singleton; eapply Forall_impl; [|exact H]; intros c Hc; apply Hc.
Qed.

(** So the loop keeps every word that matches the model-number pattern,
    whatever the sets of common and preserved terms hold. *)
Lemma model_number_word_retained common preserved result word :
  In word (split U result) ->
  model_number_word U word ->
  In word (filter_words U common preserved (model_numbers U result) (split U result)).
Proof.
  intros Hin Hw; apply filter_words_In; split; [exact Hin|].
  apply keep_word_cases; right; right; apply str_in_In.
  rewrite (lower_model_number_word Hw).
  apply model_number_word_found; [apply split_word_in; exact Hin | exact Hw].
Qed.

End ModelNumberWordsKept.

Lemma excerpt_digit_facts : DigitFacts ucd_excerpt.
Proof.
  constructor.
  - intros c; cbn [isdecimal isalnum ucd_excerpt]; intros ->; reflexivity.
  - intros c; cbn [isdecimal to_lower_full ucd_excerpt]; unfold in_range, capital_sigma.
    intros H; split; revert H; cases_N; reflexivity.
  - intros c H.
    assert (Hc : (c <= 32)%N)
      by (revert H; cbn [isspace ucd_excerpt]; unfold in_range; cases_N).
    unfold is_word, char_eqb, underscore.
    cbn [isalnum ucd_excerpt existsb]; unfold in_range.
    repeat match goal with
           | |- context [(?a <=? ?b)%N] => destruct (N.leb_spec a b); try lia
           | |- context [(?a =? ?b)%N] => destruct (N.eqb_spec a b); try lia
           end; reflexivity.
Qed.

(** C6: in the loop, a word of the text that is a common term and also
    matches the model-number pattern (lower-case letters, then at least
    one digit, then characters of [a-z0-9]) stays in the filtered words,
    whatever the sets of common and preserved terms hold; the words kept
    are exactly those that are not a common term, or are a preserved
    term, or are a model number. *)
Theorem model_number_beats_common_term (U : UnicodeData)
    (common preserved : list str) (result word : str) :
  UnicodeFacts U -> DigitFacts U ->
  In word (split U result) ->
  (str_in (lower U word) common = true ->
   model_number_word U word ->
   In word (filter_words U common preserved (model_numbers U result)
                         (split U result)))
  /\ (In word (filter_words U common preserved (model_numbers U result)
                            (split U result))
      <-> str_in (lower U word) common = false
          \/ str_in (lower U word) preserved = true
          \/ str_in (lower U word) (model_numbers U result) = true).
Proof.
  intros HU HD Hin; split.
  - intros _ Hw; apply model_number_word_retained; assumption.
  - rewrite filter_words_In, keep_word_cases; tauto.
Qed.

Lemma model_number_beats_common_term_witness :
  In (py "007b")
     (filter_words ucd_excerpt [py "007b"; py "the"] []
        (model_numbers ucd_excerpt (py "the agent 007b returns"))
        (split ucd_excerpt (py "the agent 007b returns"))).
Proof.
  refine (proj1 (@model_number_beats_common_term ucd_excerpt
                   [py "007b"; py "the"] [] (py "the agent 007b returns") (py "007b")
                   excerpt_facts excerpt_digit_facts _) _ _).
  - vm_compute; auto.
  - reflexivity.
  - exists [], (py "007"), (py "b"); repeat split; try discriminate;
      vm_compute; repeat constructor.
Defined.

(** * Further properties of the function *)

(** ** A scan cuts the text into pieces *)

Lemma scan_text word r s : forall k prev,
  flat_map piece_text (scan word r k prev s) = skipn k s.
Proof.
  induction s as [|c tl IH]; intros k prev; [destruct k; reflexivity|].
  cbn [scan]; destruct k as [|k]; [|rewrite IH; reflexivity].
  destruct (match_at word r prev (c :: tl)) as [[|n]|];
    cbn [flat_map piece_text]; rewrite IH; cbn [skipn app]; try reflexivity.
  cbn [firstn app]; rewrite firstn_skipn; reflexivity.
Qed.

(** A substitution whose replacement filters the match leaves the
    characters that pass the filter as they are. *)
Lemma re_sub_filter word r (keep : char -> bool) s :
  filter keep (re_sub word r (filter keep) s) = filter keep s.
Proof.
  unfold re_sub.
  rewrite <- (scan_text word r s 0 None) at 2; cbn [skipn].
  induction (scan word r 0 None s) as [|pc pcs IH]; [reflexivity|].
  cbn [flat_map]; rewrite !filter_app, IH; f_equal.
  destruct pc as [c|m]; cbn [piece_text]; [reflexivity|].
  induction m as [|x m IHm]; [reflexivity|].
  cbn [filter]; destruct (keep x) eqn:E; cbn [filter]; rewrite ?E, IHm; reflexivity.
Qed.

Lemma re_sub_filter_length word r (keep : char -> bool) s :
  (length (re_sub word r (filter keep) s) <= length s)%nat.
Proof.
  unfold re_sub.
  rewrite <- (scan_text word r s 0 None) at 2; cbn [skipn].
  induction (scan word r 0 None s) as [|pc pcs IH]; [apply le_n|].
  cbn [flat_map]; rewrite !length_app.
  assert (H : (length (match pc with Gap c => [c] | Hit m => filter keep m end)
               <= length (piece_text pc))%nat).
  { destruct pc as [c|m]; cbn [piece_text]; [apply le_n | apply filter_length_le]. }
  lia.
Qed.

(** X7: the stage of the abbreviations only deletes dots: the text
    without its dots is the same before and after, the text does not
    grow, and a text without a dot is left as it is. *)
Theorem abbreviations_only_delete_dots (U : UnicodeData) (s : str) :
  drop_dots (re_sub (is_word U) model_pattern drop_dots s) = drop_dots s
  /\ (length (re_sub (is_word U) model_pattern drop_dots s) <= length s)%nat
  /\ (~ In dot s -> re_sub (is_word U) model_pattern drop_dots s = s).
Proof.
  split; [apply re_sub_filter | split; [apply re_sub_filter_length|]].
  intros H; apply re_sub_no_match with (q := char_eqb dot).
  - cbn [needs model_pattern Lit]; auto.
  - apply Forall_forall; intros c Hc.
    destruct (char_eqb dot c) eqn:E; [|reflexivity].
    apply char_eqb_eq in E; subst c; contradiction.
Qed.

Lemma abbreviations_only_delete_dots_witness :
  re_sub (is_word ucd_excerpt) model_pattern drop_dots (py "tag heuer monaco")
  = py "tag heuer monaco".
Proof.
  apply (proj2 (proj2 (abbreviations_only_delete_dots ucd_excerpt (py "tag heuer monaco")))).
  vm_compute; intuition discriminate.
Defined.

(** ** The words of the standard-mode result *)

Lemma filter_words_filter U common preserved numbers words :
  filter_words U common preserved numbers words
  = filter (keep_word U common preserved numbers) words.
Proof.
  induction words as [|w rest IH]; [reflexivity|].
  cbn [filter_words filter]; rewrite IH; reflexivity.
Qed.

(** No preserved term of the source is one of its common terms. *)
Lemma preserved_not_common t :
  str_in t preserved_terms = true -> str_in t common_terms = false.
Proof.
  intros H; apply str_in_In in H.
  assert (Hall : forallb (fun p => negb (str_in p common_terms)) preserved_terms = true)
    by (vm_compute; reflexivity).
  rewrite forallb_forall in Hall; apply negb_true_iff, Hall, H.
Qed.

Section ResultWords.

Variable U : UnicodeData.
Hypothesis HU : UnicodeFacts U.

(** With the two sets of the source, the first test of the loop
    decides alone. *)
Lemma keep_word_not_common result w :
  keep_word U common_terms preserved_terms (model_numbers U result) w = not_common U w.
Proof.
  rewrite (keep_word_without_numbers HU); unfold keep_word, not_common; cbv zeta.
  cbn [str_in existsb]; rewrite orb_false_r.
  destruct (str_in (lower U w) preserved_terms) eqn:E;
    [|rewrite orb_false_r; reflexivity].
  rewrite (preserved_not_common _ E); reflexivity.
Qed.

Lemma filtered_words_not_common result :
  filtered_words U result = filter (not_common U) (split U result).
Proof.
  unfold filtered_words; rewrite filter_words_filter.
  apply filter_ext; intros w; apply keep_word_not_common.
Qed.

Lemma split_standard_result s :
  split U (standard_result U s) = filtered_words U (cleaned U s).
Proof.
  rewrite (standard_result_join HU).
  apply (split_join (space_isspace HU)), filtered_words_clean.
Qed.

Lemma join_split_standard_result s :
  join [space] (split U (standard_result U s)) = standard_result U s.
Proof. rewrite split_standard_result, (standard_result_join HU); reflexivity. Qed.

Lemma plain_word_char c :
  plain c = true -> is_word U c = true -> word_char c = true.
Proof.
  intros Hp; unfold is_word, word_char.
  rewrite (listed_isalnum HU) by (apply plain_listed; exact Hp).
  destruct (char_eqb c underscore); [rewrite !orb_true_r; reflexivity|].
  rewrite !orb_false_r; revert Hp.
  unfold plain, az09, az, d09; cbn [isalnum ucd_excerpt existsb]; unfold in_range.
  intros Hp.
  assert (Hc : (c < 128)%N /\ ~ (65 <= c <= 90)%N) by (revert Hp; cases_N).
  clear Hp; destruct Hc as [H1 H2].
  repeat match goal with
         | |- context [(?a <=? ?b)%N] => destruct (N.leb_spec a b); try lia
         | |- context [(?a =? ?b)%N] => destruct (N.eqb_spec a b); try lia
         end; cbn; intros; try reflexivity; try discriminate.
Qed.

End ResultWords.

(** X1: the words of the standard-mode result are the words of the
    cleaned text whose lower-case form is not a common term, in their
    order; so no word of the result is a common term. *)
Theorem result_words_are_the_uncommon_words (U : UnicodeData) (s : str) :
  UnicodeFacts U ->
  split U (normalize U s (py "standard"))
  = filter (not_common U) (split U (cleaned U s))
  /\ Forall (fun w => str_in (lower U w) common_terms = false)
            (split U (normalize U s (py "standard"))).
Proof.
  intros HU; rewrite normalize_standard, (split_standard_result HU).
  rewrite (filtered_words_not_common HU); split; [reflexivity|].
  apply Forall_forall; intros w Hw; apply filter_In in Hw.
  destruct Hw as [_ Hw]; apply negb_true_iff in Hw; exact Hw.
Qed.

Lemma result_words_are_the_uncommon_words_witness :
  split ucd_excerpt (normalize ucd_excerpt (py "The Original Rolex-Oak of 1953") (py "standard"))
  = filter (not_common ucd_excerpt)
           (split ucd_excerpt (cleaned ucd_excerpt (py "The Original Rolex-Oak of 1953"))).
Proof.
  exact (proj1 (@result_words_are_the_uncommon_words ucd_excerpt
                  (py "The Original Rolex-Oak of 1953") excerpt_facts)).
Defined.

(** X2: the standard-mode result is in canonical form: joining its
    words with single spaces gives it back, and trimming it or
    collapsing its white space changes nothing (no leading, trailing or
    doubled white space). *)
Theorem standard_result_canonical_spacing (U : UnicodeData) (s : str) :
  UnicodeFacts U ->
  let r := normalize U s (py "standard") in
  join [space] (split U r) = r
  /\ strip U r = r
  /\ re_sub (is_word U) (spaces_pattern U) (fun _ => [space]) r = r.
Proof.
  intros HU r; subst r; rewrite normalize_standard.
  split; [apply (join_split_standard_result HU)|].
  rewrite (standard_result_join HU).
  pose proof (filtered_words_clean U (cleaned U s)) as Hc.
  split; [apply strip_join; exact Hc|].
  unfold spaces_pattern; rewrite re_sub_Plus.
  apply (squeeze_join (space_isspace HU) Hc).
Qed.

Lemma standard_result_canonical_spacing_witness :
  strip ucd_excerpt (normalize ucd_excerpt (py "  A.  Lange &   Söhne ") (py "standard"))
  = normalize ucd_excerpt (py "  A.  Lange &   Söhne ") (py "standard").
Proof.
  exact (proj1 (proj2 (@standard_result_canonical_spacing ucd_excerpt
                         (py "  A.  Lange &   Söhne ") excerpt_facts))).
Defined.

Lemma ascii_forallb s :
  forallb (fun c => (c <? 128)%N) s = true -> Forall (fun c => (c < 128)%N) s.
Proof.
  intros H; apply Forall_forall; intros c Hc.
  rewrite forallb_forall in H; apply N.ltb_lt, H, Hc.
Qed.

(** X3: on an input of Basic Latin (ASCII) characters the standard-mode
    result has only characters of [a-z0-9_] and spaces, and the
    alphanumeric-mode result is the standard-mode result without its
    spaces and underscores. *)
Theorem ascii_result_charset (U : UnicodeData) (s : str) :
  UnicodeFacts U ->
  Forall (fun c => (c < 128)%N) s ->
  Forall (fun c => word_char c = true \/ c = space) (normalize U s (py "standard"))
  /\ normalize U s (py "alphanumeric")
     = filter (fun c => negb (char_eqb c space || char_eqb c underscore))
              (normalize U s (py "standard")).
Proof.
  intros HU Hs.
  assert (H : Forall (fun c => word_char c = true \/ c = space)
                     (normalize U s (py "standard"))).
  { rewrite normalize_standard.
    pose proof (standard_result_ascii_plain HU Hs) as Hp.
    pose proof (standard_result_word_or_space HU s) as Hw.
    rewrite Forall_forall in *; intros c Hc.
    destruct (Hw c Hc) as [Hword| ->]; [left | right; reflexivity].
    apply (plain_word_char HU); auto. }
  split; [exact H|].
  rewrite normalize_alphanumeric, <- normalize_standard.
  apply filter_ext_in; intros c Hc.
  rewrite Forall_forall in H; destruct (H c Hc) as [Hw| ->]; [|reflexivity].
  revert Hw; unfold word_char, az09, az, d09, in_range, char_eqb, space, underscore.
  repeat match goal with
         | |- context [(?a <=? ?b)%N] => destruct (N.leb_spec a b); try lia
         | |- context [(?a =? ?b)%N] => destruct (N.eqb_spec a b); try lia
         end; cbn; intros; try reflexivity; try discriminate; try lia.
Qed.

Lemma ascii_result_charset_witness :
  normalize ucd_excerpt (py "Tag_Heuer Monaco (Cal.2)") (py "alphanumeric")
  = filter (fun c => negb (char_eqb c space || char_eqb c underscore))
           (normalize ucd_excerpt (py "Tag_Heuer Monaco (Cal.2)") (py "standard")).
Proof.
  apply (@ascii_result_charset ucd_excerpt (py "Tag_Heuer Monaco (Cal.2)") excerpt_facts).
  apply ascii_forallb; vm_compute; reflexivity.
Defined.

(** ** Inputs without a word *)

Section NoWord.

Variable U : UnicodeData.
Hypothesis HU : UnicodeFacts U.

Lemma split_from_all_space s :
  Forall (fun c => isspace U c = true) s -> split_from U [] s = [].
Proof.
  intros H; induction H as [|c tl Hc Htl IH]; [reflexivity|].
  cbn [split_from]; rewrite Hc; exact IH.
Qed.

Lemma process_str_of_standard s mode :
  standard_result U s = [] -> process_str U s mode = [].
Proof.
  intros H; destruct (eq_str mode (py "alphanumeric")) eqn:E.
  - apply eq_str_true in E; subst mode.
    rewrite process_str_alphanumeric, H; reflexivity.
  - rewrite process_str_standard by exact E; exact H.
Qed.

(** Where the unaccented text has no word character outside white
    space, the cleaned text is white space and there is no word. *)
Lemma standard_result_no_word s :
  Forall (fun c => is_word U c = false \/ isspace U c = true) (unaccented U s) ->
  standard_result U s = [].
Proof.
  intros H; rewrite (standard_result_join HU).
  unfold filtered_words, split.
  rewrite split_from_all_space; [reflexivity|].
  unfold cleaned, special_pattern; cbv zeta; rewrite re_sub_replace.
  apply Forall_map.
  eapply Forall_impl; [|apply re_sub_Forall; [|exact H]].
  - intros c [Hw|Hs]; cbv beta.
    + rewrite Hw; cbn [orb].
      destruct (isspace U c) eqn:E; cbn [negb]; [exact E | apply (space_isspace HU)].
    + rewrite Hs, orb_true_r; exact Hs.
  - intros m Hm; apply Forall_forall; intros c Hc; apply filter_In in Hc.
    rewrite Forall_forall in Hm; apply Hm; tauto.
Qed.

Lemma lower_from_all_space s : forall before after,
  Forall (fun c => isspace U c = true) s -> lower_from U before s after = s.
Proof.
  induction s as [|c tl IH]; intros before after H; [reflexivity|].
  inversion H as [|? ? Hc Htl]; subst.
  cbn [lower_from]; rewrite (lower_char_space HU) by exact Hc.
  rewrite IH by exact Htl; reflexivity.
Qed.

Lemma unmark_all_space s :
  Forall (fun c => isspace U c = true) s ->
  Forall (fun c => isspace U c = true) (unmark U s).
Proof.
  intros H; induction H as [|c tl Hc Htl IH]; [constructor|].
  change (c :: tl) with ([c] ++ tl); rewrite unmark_app.
  destruct (unmark_space HU c Hc) as (c' & -> & Hc').
  constructor; assumption.
Qed.

Lemma unaccented_all_space s :
  Forall (fun c => isspace U c = true) s ->
  Forall (fun c => isspace U c = true) (unaccented U s).
Proof.
  intros H; rewrite unaccented_eq; unfold lower.
  rewrite lower_from_all_space by exact H.
  apply unmark_all_space; exact H.
Qed.

End NoWord.

(** X4: an input whose unaccented text has no word character, white
    space aside, gives the empty string in every mode; so does an input
    of white space only. *)
Theorem no_word_gives_empty (U : UnicodeData) (s : str) (mode : pyobj) :
  UnicodeFacts U ->
  (Forall (fun c => is_word U c = false \/ isspace U c = true) (unaccented U s) ->
   process_brand_for_search U (PyStr s) mode = Returned [])
  /\ (Forall (fun c => isspace U c = true) s ->
      process_brand_for_search U (PyStr s) mode = Returned []).
Proof.
  intros HU.
  assert (H1 : Forall (fun c => is_word U c = false \/ isspace U c = true)
                      (unaccented U s) ->
               process_brand_for_search U (PyStr s) mode = Returned []).
  { intros H; rewrite process_brand_str; destruct s; [reflexivity|].
    rewrite process_str_of_standard; [reflexivity|].
    apply (standard_result_no_word HU); exact H. }
  split; [exact H1|].
  intros H; apply H1.
  eapply Forall_impl; [|apply (unaccented_all_space HU H)]; auto.
Qed.

Lemma no_word_gives_empty_witness :
  process_brand_for_search ucd_excerpt (PyStr (py "?! ... -- & (#)")) (PyStr (py "standard"))
  = Returned []
  /\ process_brand_for_search ucd_excerpt (PyStr (py "   ")) (PyStr (py "alphanumeric"))
     = Returned [].
Proof.
  split.
  - apply (proj1 (@no_word_gives_empty ucd_excerpt (py "?! ... -- & (#)")
                    (PyStr (py "standard")) excerpt_facts)).
    vm_compute; repeat constructor.
  - apply (proj2 (@no_word_gives_empty ucd_excerpt (py "   ")
                    (PyStr (py "alphanumeric")) excerpt_facts)).
    vm_compute; repeat constructor.
Defined.

(** ** Letter case of the input *)

Lemma process_str_lower U s t mode :
  lower U s = lower U t -> process_str U s mode = process_str U t mode.
Proof.
  intros H; unfold process_str, cleaned, unaccented; rewrite H; reflexivity.
Qed.

Lemma process_str_nil U mode : process_str U [] mode = [].
Proof.
  apply process_str_of_standard; reflexivity.
Qed.

Lemma process_brand_lower U s t mode :
  lower U s = lower U t ->
  process_brand_for_search U (PyStr s) mode = process_brand_for_search U (PyStr t) mode.
Proof.
  intros H; rewrite !process_brand_str.
  destruct s as [|a s], t as [|b t]; try reflexivity; f_equal.
  - rewrite <- (process_str_lower U [] (b :: t) mode H), process_str_nil; reflexivity.
  - rewrite (process_str_lower U (a :: s) [] mode H), process_str_nil; reflexivity.
  - apply process_str_lower; exact H.
Qed.

Ltac prune_N :=
  repeat match goal with
         | |- context [(?a <=? ?b)%N] => destruct (N.leb_spec a b); try lia
         | |- context [(?a =? ?b)%N] => destruct (N.eqb_spec a b); try lia
         | |- context [(?a <? ?b)%N] => destruct (N.ltb_spec a b); try lia
         end.

Lemma lower_ascii_plain s :
  Forall (fun c => (c < 128)%N) s ->
  Forall (fun c => plain c = true) (lower ucd_excerpt s).
Proof.
  intros H.
  rewrite lower_no_sigma
    by (eapply Forall_impl; [|exact H]; intros c Hc; cbv beta in *;
        unfold capital_sigma; lia).
  apply Forall_flat_map; eapply Forall_impl; [|exact H].
  intros c Hc; cbv beta in Hc.
  cbn [to_lower_full ucd_excerpt]; unfold in_range.
  prune_N; cbn [andb]; repeat constructor; unfold plain, in_range;
    prune_N; reflexivity.
Qed.

Lemma lower_plain U s :
  UnicodeFacts U -> Forall (fun c => plain c = true) s -> lower U s = s.
Proof.
  intros HU H; rewrite lower_no_sigma.
  - apply flat_map_singleton; eapply Forall_impl; [|exact H].
    intros c Hc; apply (plain_entries HU c Hc).
  - eapply Forall_impl; [|exact H].
    intros c Hc; apply listed_not_sigma, plain_listed; exact Hc.
Qed.

(** X5: the result depends on the input only through its lower-case
    form; on an input of Basic Latin (ASCII) characters the function
    gives the same result for the input and for its lower-case form. *)
Theorem letter_case_is_ignored (U : UnicodeData) (s : str) (mode : pyobj) :
  UnicodeFacts U ->
  (forall t, lower U t = lower U s ->
             process_brand_for_search U (PyStr t) mode
             = process_brand_for_search U (PyStr s) mode)
  /\ (Forall (fun c => (c < 128)%N) s ->
      process_brand_for_search U (PyStr (lower U s)) mode
      = process_brand_for_search U (PyStr s) mode).
Proof.
  intros HU; split; [intros t H; apply process_brand_lower; exact H|].
  intros Hs; apply process_brand_lower.
  destruct (lower_listed HU (ascii_listed Hs)) as [-> _].
  apply (lower_plain HU), lower_ascii_plain; exact Hs.
Qed.

Lemma letter_case_is_ignored_witness :
  process_brand_for_search ucd_excerpt (PyStr (py "rolex OAK cal.2")) (PyStr (py "standard"))
  = process_brand_for_search ucd_excerpt (PyStr (py "ROLEX Oak Cal.2")) (PyStr (py "standard")).
Proof.
  apply (proj1 (@letter_case_is_ignored ucd_excerpt (py "ROLEX Oak Cal.2")
                  (PyStr (py "standard")) excerpt_facts)).
  vm_compute; reflexivity.
Defined.

(** ** Text of lower-case word characters *)

Section WordChars.

Variable U : UnicodeData.
Hypothesis HU : UnicodeFacts U.

Local Abbreviation WordChars := (Forall (fun c => word_char c = true)).

Lemma word_char_plain c : word_char c = true -> plain c = true.
Proof.
  unfold word_char, az09, az, d09, plain, in_range, char_eqb, underscore.
  prune_N; cbn; intros; try reflexivity; try discriminate.
Qed.

Lemma word_char_word c : word_char c = true -> is_word U c = true.
Proof.
  unfold word_char, is_word; intros H.
  destruct (char_eqb c underscore); [apply orb_true_r|].
  rewrite orb_false_r in H |- *.
  pose proof (az09_word HU c H) as Hw; unfold is_word in Hw.
  apply orb_true_iff in Hw; destruct Hw as [Hw|Hw]; [exact Hw|].
  revert H Hw; unfold az09, az, d09, in_range, char_eqb, underscore.
  prune_N; cbn; intros; try discriminate.
Qed.

Lemma word_char_not_space c : word_char c = true -> isspace U c = false.
Proof.
  intros H; rewrite (listed_isspace HU)
    by (apply plain_listed, word_char_plain; exact H).
  revert H; cbn [isspace ucd_excerpt].
  unfold word_char, az09, az, d09, in_range, char_eqb, underscore.
  prune_N; cbn; intros; try reflexivity; try discriminate.
Qed.

Lemma word_char_not_dot c : word_char c = true -> char_eqb dot c = false.
Proof.
  unfold word_char, az09, az, d09, in_range, char_eqb, underscore, dot.
  prune_N; cbn; intros; try reflexivity; try discriminate.
Qed.

Lemma word_chars_clean t : t <> [] -> WordChars t -> clean_word U t.
Proof.
  intros Hne H; split; [exact Hne|].
  eapply Forall_impl; [|exact H]; exact word_char_not_space.
Qed.

Lemma word_chars_plain t : WordChars t -> Forall (fun c => plain c = true) t.
Proof. apply Forall_impl; exact word_char_plain. Qed.

Lemma special_word_chars t :
  Forall (fun c => is_word U c = true) t ->
  re_sub (is_word U) (special_pattern U) (fun _ => [space]) t = t.
Proof.
  intros H; unfold special_pattern; rewrite re_sub_replace.
  transitivity (map (fun c : char => c) t); [|apply map_id].
  apply map_ext_in; intros c Hc; rewrite Forall_forall in H.
  rewrite (H c Hc); reflexivity.
Qed.

(** The cleaning leaves a text of lower-case word characters as it is. *)
Lemma cleaned_word_chars t : WordChars t -> cleaned U t = t.
Proof.
  intros H; unfold cleaned; cbv zeta.
  rewrite (unaccented_plain HU (word_chars_plain H)).
  rewrite (@re_sub_no_match (is_word U) (char_eqb dot) model_pattern drop_dots t).
  - apply special_word_chars; eapply Forall_impl; [|exact H]; exact word_char_word.
  - cbn [needs model_pattern Lit]; auto.
  - eapply Forall_impl; [|exact H]; exact word_char_not_dot.
Qed.

(** The function on one word of lower-case word characters: the word
    comes back unless it is a common term. *)
Lemma standard_result_one_word t :
  WordChars t ->
  standard_result U t = if str_in t common_terms then [] else t.
Proof.
  intros H; destruct t as [|c t]; [reflexivity|].
  rewrite (standard_result_join HU), (cleaned_word_chars H).
  rewrite (filtered_words_not_common HU).
  assert (Hc : clean_word U (c :: t)) by (apply word_chars_clean; [discriminate | exact H]).
  rewrite (split_word_end Hc).
  cbn [filter]; unfold not_common.
  rewrite (lower_plain HU (word_chars_plain H)).
  destruct (str_in (c :: t) common_terms); reflexivity.
Qed.

End WordChars.

(** X6: a second pass over an alphanumeric-mode result, in either mode,
    gives the result back unless the collapsed result spells a common
    term, in which case it gives the empty string. *)
Theorem second_pass_on_alphanumeric (U : UnicodeData) (s : str) :
  UnicodeFacts U ->
  let r := normalize U s (py "alphanumeric") in
  normalize U r (py "alphanumeric") = (if str_in r common_terms then [] else r)
  /\ normalize U r (py "standard") = (if str_in r common_terms then [] else r).
Proof.
  intros HU r.
  assert (Hr : Forall (fun c => az09 c = true) r).
  { subst r; rewrite normalize_alphanumeric.
    apply Forall_forall; intros c Hc; apply filter_In in Hc; tauto. }
  assert (Hw : Forall (fun c => word_char c = true) r).
  { eapply Forall_impl; [|exact Hr].
    intros c Hc; unfold word_char; rewrite Hc; reflexivity. }
  rewrite normalize_alphanumeric, normalize_standard.
  rewrite (standard_result_one_word HU Hw).
  split; [|reflexivity].
  destruct (str_in r common_terms); [reflexivity|].
  clear Hw; induction Hr as [|c tl Hc Htl IH]; [reflexivity|].
  cbn [filter]; rewrite Hc, IH; reflexivity.
Qed.

Lemma second_pass_on_alphanumeric_witness :
  normalize ucd_excerpt (py "t-he") (py "alphanumeric") = py "the"
  /\ normalize ucd_excerpt (py "the") (py "alphanumeric") = py "".
Proof.
  pose proof (proj1 (@second_pass_on_alphanumeric ucd_excerpt (py "t-he") excerpt_facts))
    as H.
  split; [vm_compute; reflexivity|].
  replace (py "the") with (normalize ucd_excerpt (py "t-he") (py "alphanumeric"))
    by (vm_compute; reflexivity).
  rewrite H; vm_compute; reflexivity.
Defined.

(** ** Any word through the stages *)

Section AnyWord.

Variable U : UnicodeData.
Hypothesis HU : UnicodeFacts U.

Local Abbreviation Plain := (Forall (fun c => plain c = true)).

Lemma lower_from_word_plain w before after :
  Plain (lower U w) -> lower_from U before w after = lower U w.
Proof.
  intros H.
  assert (Hs : Forall (fun c => c <> capital_sigma) w).
  { apply Forall_forall; intros c Hc ->.
    apply (lower_from_sigma U w [] []) in Hc.
    apply Exists_exists in Hc; destruct Hc as (x & Hx & Hv).
    rewrite Forall_forall in H; specialize (H x Hx).
    destruct Hv as [-> | ->]; discriminate. }
  unfold lower; rewrite !lower_from_no_sigma by exact Hs; reflexivity.
Qed.

Lemma unmark_plain t : Plain t -> unmark U t = t.
Proof.
  intros H; induction H as [|c tl Hc Htl IH]; [reflexivity|].
  change (c :: tl) with ([c] ++ tl); rewrite unmark_app, IH; f_equal.
  destruct (plain_entries HU c Hc) as (_ & Hd & Hm).
  unfold unmark, strip_combining; cbn [flat_map]; rewrite Hd.
  cbn [app filter]; rewrite Hm; reflexivity.
Qed.

(** A word whose lower-case form is plain and clean is, in that form, a
    word of the unaccented text. *)
Lemma unaccented_word_in_plain w s :
  word_in U w s -> clean_word U (lower U w) -> Plain (lower U w) ->
  word_in U (lower U w) (unaccented U s).
Proof.
  intros (pre & post & -> & Hw & Hpre & Hpost) Hc Hp.
  rewrite unaccented_eq; fold (unmark U (lower U (pre ++ w ++ post))).
  unfold lower at 2; rewrite !lower_from_app, (lower_from_word_plain w) by exact Hp.
  rewrite !unmark_app, (unmark_plain Hp).
  eexists; eexists; split; [reflexivity|].
  split; [exact Hc|].
  split; [apply (unmark_fence_rev HU), (lower_from_fence_rev HU); exact Hpre|].
  apply (unmark_fence HU), (lower_from_fence HU); exact Hpost.
Qed.

(** *** The abbreviations *)

(** A word without a dot goes through. *)
Lemma model_pattern_word_in_nodot t s :
  Forall (fun c => char_eqb dot c = false) t -> word_in U t s ->
  word_in U t (re_sub (is_word U) model_pattern drop_dots s).
Proof.
  intros Ht (pre & post & -> & Hw & Hpre & Hpost).
  unfold re_sub; fold (emit drop_dots (scan (is_word U) model_pattern 0 None
                                            (pre ++ t ++ post))).
  destruct (model_pattern_before HU pre (t ++ post) None Hpre)
    as (P' & prev' & -> & HP').
  exists P'.
  destruct post as [|c post].
  - exists []; split; [|auto].
    rewrite (@scan_no_match (is_word U) (char_eqb dot) model_pattern (t ++ []) prev'
               model_pattern_needs)
      by (rewrite app_nil_r; exact Ht).
    rewrite emit_gaps; reflexivity.
  - cbn [fence] in Hpost.
    rewrite (@scan_barrier_quiet (is_word U) abbreviation_char model_pattern
               model_pattern_accepts c (space_not_abbreviation HU c Hpost)
               (char_eqb dot) model_pattern_needs post t prev' Ht).
    rewrite emit_app, emit_gaps.
    eexists; split; [reflexivity | auto].
Qed.

(** A word that the pattern matches as a whole loses its dots. *)
Lemma model_pattern_word_in_hit w s :
  (forall prev post, fence U post ->
     match_at (is_word U) model_pattern prev (w ++ post) = Some (length w)) ->
  clean_word U (drop_dots w) ->
  word_in U w s ->
  word_in U (drop_dots w) (re_sub (is_word U) model_pattern drop_dots s).
Proof.
  intros Hm Hc (pre & post & -> & [Hne _] & Hpre & Hpost).
  unfold re_sub; fold (emit drop_dots (scan (is_word U) model_pattern 0 None
                                            (pre ++ w ++ post))).
  destruct (model_pattern_before HU pre (w ++ post) None Hpre)
    as (P' & prev' & -> & HP').
  exists P'.
  specialize (Hm prev' post Hpost).
  destruct w as [|a w']; [contradiction|].
  cbn [app] in *; rewrite scan_step, Hm; cbn [length skipn firstn].
  assert (E1 : firstn (length w') (w' ++ post) = w')
    by (rewrite firstn_app, firstn_all, Nat.sub_diag, firstn_O; apply app_nil_r).
  assert (E2 : skipn (length w') (w' ++ post) = post)
    by (rewrite skipn_app, skipn_all, Nat.sub_diag; reflexivity).
  rewrite E1, E2.
  change (emit drop_dots (Hit (a :: w') :: ?X))
    with (drop_dots (a :: w') ++ emit drop_dots X).
  exists (emit drop_dots
            (scan (is_word U) model_pattern 0
                  (prev_at prev' (a :: w' ++ post) (S (length w'))) post)).
  split; [reflexivity | split; [exact Hc | split; [exact HP'|]]].
  destruct post as [|c post]; [exact I|].
  cbn [fence] in Hpost.
  rewrite (@scan_at_barrier (is_word U) abbreviation_char model_pattern
             model_pattern_accepts c (space_not_abbreviation HU c Hpost)).
  exact Hpost.
Qed.

Lemma match_at_Alt_l word r1 r2 prev s n :
  match_at word r1 prev s = Some n -> match_at word (Alt r1 r2) prev s = Some n.
Proof.
  unfold match_at; cbn [ends]; destruct (ends word r1 prev s); [discriminate|].
  intros H; exact H.
Qed.

Lemma match_at_Alt_r word r1 r2 prev s :
  ends word r1 prev s = [] ->
  match_at word (Alt r1 r2) prev s = match_at word r2 prev s.
Proof. unfold match_at; cbn [ends]; intros ->; reflexivity. Qed.

Lemma fence_not_d09 post : fence U post -> run d09 post = 0%nat.
Proof.
  apply fence_not; intros c Hc.
  pose proof (space_not_abbreviation HU c Hc) as H.
  unfold abbreviation_char in H; apply orb_false_iff in H; tauto.
Qed.

Lemma az_not_dot c : az c = true -> char_eqb c dot = false.
Proof. unfold az, in_range, char_eqb, dot; prune_N; cbn; intros; congruence. Qed.

Lemma d09_not_dot c : d09 c = true -> char_eqb c dot = false.
Proof. unfold d09, in_range, char_eqb, dot; prune_N; cbn; intros; congruence. Qed.

Lemma az_not_d09 c : az c = true -> d09 c = false.
Proof. unfold az, d09, in_range; prune_N; cbn; intros; congruence. Qed.

(** Letters, a dot, digits: the first alternative takes the whole
    word. *)
Lemma match_at_letters_dot_digits L D prev post :
  L <> [] -> Forall (fun c => az c = true) L ->
  D <> [] -> Forall (fun c => d09 c = true) D ->
  fence U post ->
  match_at (is_word U) model_pattern prev ((L ++ dot :: D) ++ post)
  = Some (length (L ++ dot :: D)).
Proof.
  intros HLne HL HDne HD Hpost.
  rewrite <- app_assoc; cbn [app].
  replace (length (L ++ dot :: D)) with (length L + 1 + length D)%nat
    by (rewrite length_app; cbn [length]; lia).
  unfold model_pattern; apply match_at_Alt_l.
  assert (R1 : run az (L ++ dot :: D ++ post) = length L).
  { rewrite run_app by exact HL; cbn [run].
    replace (az dot) with false by reflexivity; lia. }
  assert (E1 : skipn (length L) (L ++ dot :: D ++ post) = dot :: D ++ post)
    by (rewrite skipn_app, skipn_all, Nat.sub_diag; reflexivity).
  apply match_at_Seq.
  - apply match_at_Seq.
    + rewrite <- R1; apply match_at_Plus; rewrite R1.
      destruct L; [contradiction | cbn; lia].
    + rewrite E1; unfold Lit; rewrite match_at_Cls.
      unfold char_eqb; rewrite N.eqb_refl; reflexivity.
  - replace (length L + 1)%nat with (S (length L)) by lia.
    assert (E2 : skipn (S (length L)) (L ++ dot :: D ++ post) = D ++ post).
    { replace (S (length L)) with (1 + length L)%nat by lia.
      rewrite <- skipn_skipn, E1; reflexivity. }
    rewrite E2.
    assert (R2 : run d09 (D ++ post) = length D)
      by (rewrite run_app by exact HD; rewrite (fence_not_d09 _ Hpost); lia).
    rewrite <- R2; apply match_at_Plus; rewrite R2.
    destruct D; [contradiction | cbn; lia].
Qed.

Lemma drop_dots_none t :
  Forall (fun c => char_eqb c dot = false) t -> drop_dots t = t.
Proof.
  intros H; induction H as [|c tl Hc Htl IH]; [reflexivity|].
  unfold drop_dots in *; cbn [filter]; rewrite Hc; cbn [negb]; rewrite IH; reflexivity.
Qed.

Lemma drop_dots_letters_dot_digits L D :
  Forall (fun c => az c = true) L -> Forall (fun c => d09 c = true) D ->
  drop_dots (L ++ dot :: D) = L ++ D.
Proof.
  intros HL HD; unfold drop_dots; rewrite filter_app; cbn [filter].
  replace (char_eqb dot dot) with true by reflexivity; cbn [negb].
  fold (drop_dots L); fold (drop_dots D).
  rewrite !drop_dots_none; [reflexivity | |].
  - eapply Forall_impl; [|exact HD]; exact d09_not_dot.
  - eapply Forall_impl; [|exact HL]; exact az_not_dot.
Qed.

(** One letter, a dot, one letter, a dot: the first alternative fails
    and the second takes the whole word. *)
Lemma match_at_letter_dot_letter_dot x y prev post :
  az x = true -> az y = true ->
  match_at (is_word U) model_pattern prev ([x; dot; y; dot] ++ post) = Some 4%nat.
Proof.
  intros Hx Hy; unfold model_pattern.
  assert (Hd : char_eqb dot dot = true) by reflexivity.
  assert (Ha : az dot = false) by reflexivity.
  rewrite match_at_Alt_r.
  - unfold match_at, Lit; cbn [ends app].
    repeat first [ rewrite Hx | rewrite Hy | rewrite Hd
                 | progress cbn [flat_map map app skipn Nat.add hd_error] ].
    reflexivity.
  - cbn [ends app run Lit].
    repeat first [ rewrite Hx | rewrite Hy | rewrite Hd | rewrite Ha
                 | rewrite (az_not_d09 y Hy)
                 | progress cbn [countdown Nat.leb Nat.eqb flat_map map app skipn
                                 Nat.add run] ].
    reflexivity.
Qed.

(** *** The special characters *)

Lemma special_word_in_words t s :
  Forall (fun c => is_word U c = true) t -> word_in U t s ->
  word_in U t (re_sub (is_word U) (special_pattern U) (fun _ => [space]) s).
Proof.
  intros Ht (pre & post & -> & Hw & Hpre & Hpost).
  unfold special_pattern; rewrite re_sub_replace, !map_app.
  set (f := fun c => if negb (is_word U c || isspace U c) then space else c).
  assert (Hsp : forall c, isspace U c = true -> f c = c).
  { intros c Hc; unfold f; rewrite Hc, orb_true_r; reflexivity. }
  assert (Hf : forall x, fence U x -> fence U (map f x)).
  { intros [|c x]; [auto|]; cbn [fence map]; intros Hc; rewrite Hsp; exact Hc. }
  exists (map f pre), (map f post); split; [|split; [exact Hw | split]].
  - f_equal; f_equal.
    transitivity (map (fun c : char => c) t); [|apply map_id].
    apply map_ext_in; intros c Hc; unfold f; rewrite Forall_forall in Ht.
    rewrite (Ht c Hc); reflexivity.
  - rewrite <- map_rev; apply Hf; exact Hpre.
  - apply Hf; exact Hpost.
Qed.

(** *** The loop and the end *)

Lemma kept_word_in_result t s :
  word_in U t (cleaned U s) -> lower U t = t -> str_in t common_terms = false ->
  In t (split U (standard_result U s)).
Proof.
  intros Hw Hl Hc.
  rewrite (split_standard_result HU), (filtered_words_not_common HU).
  apply filter_In; split; [apply word_in_split; exact Hw|].
  unfold not_common; rewrite Hl, Hc; reflexivity.
Qed.

End AnyWord.

Section WordsOfTheInput.

Variable U : UnicodeData.
Hypothesis HU : UnicodeFacts U.

Lemma abbreviation_char_plain c : abbreviation_char c = true -> plain c = true.
Proof.
  unfold abbreviation_char, az, d09, plain, in_range, char_eqb, dot.
  prune_N; cbn; intros; try reflexivity; try discriminate.
Qed.

Lemma abbreviation_char_not_space c :
  abbreviation_char c = true -> isspace U c = false.
Proof.
  intros H; destruct (isspace U c) eqn:E; [|reflexivity].
  rewrite (space_not_abbreviation HU c E) in H; discriminate.
Qed.

Lemma abbreviation_word_clean t :
  t <> [] -> Forall (fun c => abbreviation_char c = true) t ->
  clean_word U t /\ Forall (fun c => plain c = true) t.
Proof.
  intros Hne H; split; [split; [exact Hne|]|].
  - eapply Forall_impl; [|exact H]; exact abbreviation_char_not_space.
  - eapply Forall_impl; [|exact H]; exact abbreviation_char_plain.
Qed.

Lemma az09_word_char t :
  Forall (fun c => az09 c = true) t -> Forall (fun c => word_char c = true) t.
Proof.
  apply Forall_impl; intros c Hc; unfold word_char; rewrite Hc; reflexivity.
Qed.

(** A word with a digit is not a common term. *)
Lemma digit_not_common t :
  Exists (fun c => d09 c = true) t -> str_in t common_terms = false.
Proof.
  intros H; destruct (str_in t common_terms) eqn:E; [exfalso|reflexivity].
  apply str_in_In in E.
  pose proof common_terms_az as Haz; rewrite Forall_forall in Haz.
  specialize (Haz t E); rewrite Forall_forall in Haz.
  apply Exists_exists in H; destruct H as (c & Hc & Hd).
  rewrite (az_not_d09 c (Haz c Hc)) in Hd; discriminate.
Qed.

(** From a word of the cleaned text to a word of the result. *)
Lemma word_chars_kept t s :
  Forall (fun c => word_char c = true) t ->
  str_in t common_terms = false ->
  word_in U t (re_sub (is_word U) model_pattern drop_dots (unaccented U s)) ->
  In t (split U (standard_result U s)).
Proof.
  intros Ht Hc Hw; apply (kept_word_in_result HU).
  - unfold cleaned; cbv zeta; apply special_word_in_words; [|exact Hw].
    eapply Forall_impl; [|exact Ht]; exact (word_char_word HU).
  - apply (lower_plain HU), word_chars_plain; exact Ht.
  - exact Hc.
Qed.

End WordsOfTheInput.

(** X10: a word of the input whose lower-case form is made of
    characters of [a-z0-9_] and is not a common term is, in that form,
    a word of the standard-mode result. *)
Theorem uncommon_word_survives (U : UnicodeData) (s w t : str) :
  UnicodeFacts U ->
  In w (split U s) ->
  lower U w = t ->
  t <> [] ->
  Forall (fun c => word_char c = true) t ->
  str_in t common_terms = false ->
  In t (split U (normalize U s (py "standard"))).
Proof.
  intros HU Hw Hl Hne Ht Hc; rewrite normalize_standard.
  apply (word_chars_kept HU); [exact Ht | exact Hc|].
  apply model_pattern_word_in_nodot;
    [exact HU | eapply Forall_impl; [|exact Ht]; exact word_char_not_dot|].
  rewrite <- Hl; apply (unaccented_word_in_plain HU).
  - apply split_word_in; exact Hw.
  - rewrite Hl; apply (word_chars_clean HU); assumption.
  - rewrite Hl; apply word_chars_plain; exact Ht.
Qed.

Lemma uncommon_word_survives_witness :
  In (py "ps_535")
     (split ucd_excerpt
            (normalize ucd_excerpt (py "Piaget PS_535 Chronographe") (py "standard"))).
Proof.
  apply (@uncommon_word_survives ucd_excerpt (py "Piaget PS_535 Chronographe")
           (py "PS_535") (py "ps_535") excerpt_facts).
  - vm_compute; auto.
  - vm_compute; reflexivity.
  - discriminate.
  - vm_compute; repeat constructor.
  - vm_compute; reflexivity.
Defined.

(** X8: a word of the input whose lower-case form is letters of [a-z],
    a dot and digits of [0-9], such as "Cal.2", is in the standard-mode
    result without the dot. *)
Theorem letters_dot_digits_collapse (U : UnicodeData) (s w L D : str) :
  UnicodeFacts U ->
  In w (split U s) ->
  lower U w = L ++ dot :: D ->
  L <> [] -> Forall (fun c => az c = true) L ->
  D <> [] -> Forall (fun c => d09 c = true) D ->
  In (L ++ D) (split U (normalize U s (py "standard"))).
Proof.
  intros HU Hw Hl HLne HL HDne HD; rewrite normalize_standard.
  assert (Ha : Forall (fun c => abbreviation_char c = true) (L ++ dot :: D)).
  { apply Forall_app; split; [|constructor; [reflexivity|]].
    - eapply Forall_impl; [|exact HL]; intros c Hc.
      unfold abbreviation_char; rewrite Hc; reflexivity.
    - eapply Forall_impl; [|exact HD]; intros c Hc.
      unfold abbreviation_char; rewrite Hc; apply orb_true_r. }
  assert (Hne : L ++ dot :: D <> []) by (destruct L; discriminate).
  destruct (abbreviation_word_clean HU Hne Ha) as [Hclean Hplain].
  assert (Hw09 : Forall (fun c => az09 c = true) (L ++ D)).
  { apply Forall_app; split.
    - eapply Forall_impl; [|exact HL]; intros c Hc; unfold az09; rewrite Hc; reflexivity.
    - eapply Forall_impl; [|exact HD]; intros c Hc; unfold az09; rewrite Hc.
      apply orb_true_r. }
  apply (word_chars_kept HU); [apply az09_word_char; exact Hw09 | |].
  - apply digit_not_common, Exists_app; right.
    destruct D as [|d D]; [contradiction|].
    inversion HD; subst; constructor; assumption.
  - rewrite <- (drop_dots_letters_dot_digits HL HD).
    apply (model_pattern_word_in_hit HU).
    + intros prev post Hpost; apply (match_at_letters_dot_digits HU); assumption.
    + rewrite (drop_dots_letters_dot_digits HL HD).
      apply (word_chars_clean HU); [destruct L; [contradiction | discriminate]|].
      apply az09_word_char; exact Hw09.
    + rewrite <- Hl; apply (unaccented_word_in_plain HU);
        [apply split_word_in; exact Hw | rewrite Hl; exact Hclean
         | rewrite Hl; exact Hplain].
Qed.

Lemma letters_dot_digits_collapse_witness :
  In (py "cal2")
     (split ucd_excerpt
            (normalize ucd_excerpt (py "Tag Heuer Monaco Cal.2") (py "standard"))).
Proof.
  apply (@letters_dot_digits_collapse ucd_excerpt (py "Tag Heuer Monaco Cal.2")
           (py "Cal.2") (py "cal") (py "2") excerpt_facts).
  - vm_compute; auto 10.
  - vm_compute; reflexivity.
  - discriminate.
  - vm_compute; repeat constructor.
  - discriminate.
  - vm_compute; repeat constructor.
Defined.

(** X9: a word of the input whose lower-case form is a letter, a dot,
    a letter and a dot, such as "F.P.", is in the standard-mode result as
    the two letters, unless the two letters spell a common term. *)
Theorem letter_dot_letter_dot_collapse (U : UnicodeData) (s w : str) (x y : char) :
  UnicodeFacts U ->
  In w (split U s) ->
  lower U w = [x; dot; y; dot] ->
  az x = true -> az y = true ->
  str_in [x; y] common_terms = false ->
  In [x; y] (split U (normalize U s (py "standard"))).
Proof.
  intros HU Hw Hl Hx Hy Hc; rewrite normalize_standard.
  assert (Ha : Forall (fun c => abbreviation_char c = true) [x; dot; y; dot]).
  { repeat constructor; unfold abbreviation_char; rewrite ?Hx, ?Hy; reflexivity. }
  destruct (@abbreviation_word_clean U HU [x; dot; y; dot]) as [Hclean Hplain];
    [discriminate | exact Ha|].
  assert (Hd : drop_dots [x; dot; y; dot] = [x; y]).
  { unfold drop_dots; cbn [filter].
    rewrite (az_not_dot x Hx), (az_not_dot y Hy).
    replace (char_eqb dot dot) with true by reflexivity; reflexivity. }
  assert (Hwc : Forall (fun c => word_char c = true) [x; y]).
  { repeat constructor; unfold word_char, az09; rewrite ?Hx, ?Hy; reflexivity. }
  apply (word_chars_kept HU); [exact Hwc | exact Hc|].
  rewrite <- Hd; apply (model_pattern_word_in_hit HU).
  - intros prev post _; apply match_at_letter_dot_letter_dot; assumption.
  - rewrite Hd; apply (word_chars_clean HU); [discriminate | exact Hwc].
  - rewrite <- Hl; apply (unaccented_word_in_plain HU);
      [apply split_word_in; exact Hw | rewrite Hl; exact Hclean
       | rewrite Hl; exact Hplain].
Qed.

Lemma letter_dot_letter_dot_collapse_witness :
  In (py "fp")
     (split ucd_excerpt
            (normalize ucd_excerpt (py "F.P. Journe Élégante") (py "standard"))).
Proof.
  apply (@letter_dot_letter_dot_collapse ucd_excerpt (py "F.P. Journe Élégante")
           (py "F.P.") 102%N 112%N excerpt_facts).
  - vm_compute; auto 10.
  - vm_compute; reflexivity.
  - reflexivity.
  - reflexivity.
  - vm_compute; reflexivity.
Defined.

(** ** The demonstration *)






(** ** The length of the result *)

Lemma join_length_cons w rest :
  length (join [space] (w :: rest))
  = (length w + match rest with [] => 0 | _ => 1 + length (join [space] rest) end)%nat.
Proof.
  destruct rest as [|w' rest']; cbn [join]; [lia|].
  rewrite !length_app; cbn [length]; lia.
Qed.

Lemma join_filter_length (p : str -> bool) ws :
  (length (join [space] (filter p ws)) <= length (join [space] ws))%nat.
Proof.
  induction ws as [|w rest IH]; [apply le_n|].
  rewrite (join_length_cons w rest); cbn [filter]; destruct (p w).
  - rewrite join_length_cons.
    destruct (filter p rest) as [|x xs] eqn:E; [lia|].
    destruct rest as [|w' rest']; [discriminate | lia].
  - destruct rest as [|w' rest']; [cbn; lia | lia].
Qed.

Lemma join_split_from_length U s : forall word,
  (length (join [space] (split_from U word s)) <= length word + length s)%nat.
Proof.
  induction s as [|c tl IH]; intros word; cbn [split_from].
  - destruct word as [|x word']; [cbn; lia|].
    cbn [join]; rewrite length_rev; lia.
  - destruct (isspace U c).
    + specialize (IH []); cbn [length] in IH |- *.
      destruct word as [|x word']; [lia|].
      rewrite join_length_cons, length_rev.
      destruct (split_from U [] tl); cbn [length] in *; lia.
    + specialize (IH (c :: word)); cbn [length] in IH |- *; lia.
Qed.

Section Length.

Variable U : UnicodeData.
Hypothesis HU : UnicodeFacts U.

Lemma cleaned_length s : (length (cleaned U s) <= length (unaccented U s))%nat.
Proof.
  unfold cleaned, special_pattern; cbv zeta.
  rewrite re_sub_replace, length_map; apply re_sub_filter_length.
Qed.

Lemma standard_result_length s :
  (length (standard_result U s) <= length (unaccented U s))%nat.
Proof.
  rewrite (standard_result_join HU), (filtered_words_not_common HU).
  etransitivity; [apply join_filter_length|].
  etransitivity; [apply (join_split_from_length U (cleaned U s) [])|].
  cbn [length Nat.add]; apply cleaned_length.
Qed.

Lemma lower_excerpt_length s :
  Forall (fun c => c <> capital_sigma) s -> length (lower ucd_excerpt s) = length s.
Proof.
  intros H; rewrite lower_no_sigma by exact H; clear H.
  induction s as [|c tl IH]; [reflexivity|].
  cbn [flat_map]; rewrite length_app, IH; cbn [length]; f_equal.
  cbn [to_lower_full ucd_excerpt]; unfold in_range.
  repeat match goal with
         | |- context [if ?b then _ else _] => destruct b
         end; reflexivity.
Qed.

Lemma unaccented_ascii_length (s : str) :
  Forall (fun c => (c < 128)%N) s -> length (unaccented U s) = length s.
Proof.
  intros Hs.
  assert (Hp : Forall (fun c => plain c = true) (lower ucd_excerpt s))
    by (apply lower_ascii_plain; exact Hs).
  assert (E : unaccented U s = lower ucd_excerpt s).
  { rewrite unaccented_eq.
    destruct (lower_listed HU (ascii_listed Hs)) as [-> _].
    fold (unmark U (lower ucd_excerpt s)); apply (unmark_plain HU Hp). }
  rewrite E; apply lower_excerpt_length.
  eapply Forall_impl; [|exact Hs]; intros c Hc; cbv beta in *.
  unfold capital_sigma; lia.
Qed.

End Length.

(** X13: on an input of Basic Latin (ASCII) characters the result is
    never longer than the input, in either mode. *)
Theorem ascii_result_not_longer (U : UnicodeData) (s : str) :
  UnicodeFacts U ->
  Forall (fun c => (c < 128)%N) s ->
  (length (normalize U s (py "standard")) <= length s)%nat
  /\ (length (normalize U s (py "alphanumeric")) <= length s)%nat.
Proof.
  intros HU Hs.
  assert (H : (length (standard_result U s) <= length s)%nat).
  { etransitivity; [apply (standard_result_length HU)|].
    rewrite (unaccented_ascii_length HU Hs); apply le_n. }
  rewrite normalize_standard, normalize_alphanumeric; split; [exact H|].
  etransitivity; [apply filter_length_le | exact H].
Qed.

Lemma ascii_result_not_longer_witness :
  (length (normalize ucd_excerpt (py "Tag  Heuer -- Monaco Cal.2 !") (py "standard"))
   <= length (py "Tag  Heuer -- Monaco Cal.2 !"))%nat.
Proof.
  apply (@ascii_result_not_longer ucd_excerpt (py "Tag  Heuer -- Monaco Cal.2 !")
           excerpt_facts).
  apply ascii_forallb; vm_compute; reflexivity.
Defined.

(** ** Accented words and words with special characters *)

Section Accents.

Variable U : UnicodeData.
Hypothesis HU : UnicodeFacts U.

(** A word of the input is unaccented on its own: what surrounds it
    plays no part. *)
Lemma unaccented_word_in_any w s :
  word_in U w s ->
  Forall (fun c => c <> capital_sigma) w ->
  clean_word U (unaccented U w) ->
  word_in U (unaccented U w) (unaccented U s).
Proof.
  intros (pre & post & -> & Hw & Hpre & Hpost) Hs Hc.
  rewrite (unaccented_eq U (pre ++ w ++ post)), (unaccented_eq U w) in *.
  fold (unmark U (lower U (pre ++ w ++ post))); fold (unmark U (lower U w)) in *.
  unfold lower at 2; rewrite !lower_from_app.
  rewrite (@lower_from_no_sigma U w _ _ Hs), <- (lower_no_sigma U Hs).
  rewrite !unmark_app.
  eexists; eexists; split; [reflexivity|].
  split; [exact Hc|].
  split; [apply (unmark_fence_rev HU), (lower_from_fence_rev HU); exact Hpre|].
  apply (unmark_fence HU), (lower_from_fence HU); exact Hpost.
Qed.

(** A special character inside a word cuts it in two. *)
Lemma special_splits_word a p b s :
  Forall (fun c => is_word U c = true) a ->
  Forall (fun c => is_word U c = true) b ->
  a <> [] -> b <> [] ->
  is_word U p = false -> isspace U p = false ->
  word_in U (a ++ p :: b) s ->
  word_in U a (re_sub (is_word U) (special_pattern U) (fun _ => [space]) s)
  /\ word_in U b (re_sub (is_word U) (special_pattern U) (fun _ => [space]) s).
Proof.
  intros Ha Hb Hane Hbne Hpw Hps (pre & post & -> & [_ Hw] & Hpre & Hpost).
  unfold special_pattern; rewrite re_sub_replace, !map_app.
  set (f := fun c => if negb (is_word U c || isspace U c) then space else c).
  assert (Hsp : forall c, isspace U c = true -> f c = c).
  { intros c Hc; unfold f; rewrite Hc, orb_true_r; reflexivity. }
  assert (Hf : forall x, fence U x -> fence U (map f x)).
  { intros [|c x]; [auto|]; cbn [fence map]; intros Hc; rewrite Hsp; exact Hc. }
  assert (Hid : forall t, Forall (fun c => is_word U c = true) t -> map f t = t).
  { intros t Ht; transitivity (map (fun c : char => c) t); [|apply map_id].
    apply map_ext_in; intros c Hc; unfold f; rewrite Forall_forall in Ht.
    rewrite (Ht c Hc); reflexivity. }
  assert (Hp : f p = space) by (unfold f; rewrite Hpw, Hps; reflexivity).
  apply Forall_app in Hw; destruct Hw as [Hwa Hwb].
  inversion Hwb as [|? ? _ Hwb']; subst.
  cbn [map]; rewrite (Hid a Ha), (Hid b Hb), Hp.
  split.
  - exists (map f pre), (space :: b ++ map f post).
    split; [rewrite <- !app_assoc; reflexivity | split; [split; assumption | split]].
    + rewrite <- map_rev; apply Hf; exact Hpre.
    + exact (space_isspace HU).
  - exists (map f pre ++ a ++ [space]), (map f post).
    split; [rewrite <- !app_assoc; reflexivity | split; [split; assumption | split]].
    + rewrite !app_assoc; apply fence_rev_snoc; exact (space_isspace HU).
    + apply Hf; exact Hpost.
Qed.

End Accents.

(** X11: a word of the input without a capital sigma whose unaccented
    lower-case form is made of characters of [a-z0-9_] and is not a
    common term is, in that form, a word of the standard-mode result:
    "Élégante" gives "elegante". *)
Theorem accented_word_survives (U : UnicodeData) (s w t : str) :
  UnicodeFacts U ->
  In w (split U s) ->
  ~ In capital_sigma w ->
  unaccented U w = t ->
  t <> [] ->
  Forall (fun c => word_char c = true) t ->
  str_in t common_terms = false ->
  In t (split U (normalize U s (py "standard"))).
Proof.
  intros HU Hw Hs Hu Hne Ht Hc; rewrite normalize_standard.
  apply (word_chars_kept HU); [exact Ht | exact Hc|].
  apply model_pattern_word_in_nodot;
    [exact HU | eapply Forall_impl; [|exact Ht]; exact word_char_not_dot|].
  rewrite <- Hu; apply (unaccented_word_in_any HU).
  - apply split_word_in; exact Hw.
  - apply Forall_forall; intros c Hin ->; contradiction.
  - rewrite Hu; apply (word_chars_clean HU); assumption.
Qed.

Lemma accented_word_survives_witness :
  In (py "elegante")
     (split ucd_excerpt
            (normalize ucd_excerpt (py "F.P. Journe Élégante") (py "standard"))).
Proof.
  apply (@accented_word_survives ucd_excerpt (py "F.P. Journe Élégante")
           (py "Élégante") (py "elegante") excerpt_facts).
  - vm_compute; auto 10.
  - vm_compute; intuition discriminate.
  - vm_compute; reflexivity.
  - discriminate.
  - vm_compute; repeat constructor.
  - vm_compute; reflexivity.
Defined.

(** X14: a special character other than a dot inside a word of the
    input cuts the word in two: when the lower-case form of the word is
    two runs of characters of [a-z0-9_] around one Basic Latin character
    that is neither a word character nor white space nor a dot, each run
    that is not a common term is a word of the standard-mode result. *)
Theorem special_character_splits_word (U : UnicodeData) (s w a b : str) (p : char) :
  UnicodeFacts U ->
  In w (split U s) ->
  lower U w = a ++ p :: b ->
  a <> [] -> Forall (fun c => word_char c = true) a ->
  b <> [] -> Forall (fun c => word_char c = true) b ->
  plain p = true -> is_word U p = false -> isspace U p = false -> p <> dot ->
  (str_in a common_terms = false ->
   In a (split U (normalize U s (py "standard"))))
  /\ (str_in b common_terms = false ->
      In b (split U (normalize U s (py "standard")))).
Proof.
  intros HU Hw Hl Hane Ha Hbne Hb Hpp Hpw Hps Hpd; rewrite normalize_standard.
  assert (Hplain : Forall (fun c => plain c = true) (a ++ p :: b)).
  { apply Forall_app; split; [apply word_chars_plain; exact Ha|].
    constructor; [exact Hpp | apply word_chars_plain; exact Hb]. }
  assert (Hclean : clean_word U (a ++ p :: b)).
  { split; [destruct a; discriminate|].
    apply Forall_app; split.
    - eapply Forall_impl; [|exact Ha]; exact (word_char_not_space HU).
    - constructor; [exact Hps|].
      eapply Forall_impl; [|exact Hb]; exact (word_char_not_space HU). }
  assert (Hnodot : Forall (fun c => char_eqb dot c = false) (a ++ p :: b)).
  { apply Forall_app; split.
    - eapply Forall_impl; [|exact Ha]; exact word_char_not_dot.
    - constructor.
      + destruct (char_eqb dot p) eqn:E; [|reflexivity].
        apply char_eqb_eq in E; subst p; contradiction.
      + eapply Forall_impl; [|exact Hb]; exact word_char_not_dot. }
  assert (Hin : word_in U (a ++ p :: b)
                        (re_sub (is_word U) model_pattern drop_dots (unaccented U s))).
  { apply (model_pattern_word_in_nodot HU Hnodot).
    rewrite <- Hl; apply (unaccented_word_in_plain HU);
      [apply split_word_in; exact Hw | rewrite Hl; exact Hclean
       | rewrite Hl; exact Hplain]. }
  assert (Hwa : Forall (fun c => is_word U c = true) a)
    by (eapply Forall_impl; [|exact Ha]; exact (word_char_word HU)).
  assert (Hwb : Forall (fun c => is_word U c = true) b)
    by (eapply Forall_impl; [|exact Hb]; exact (word_char_word HU)).
  destruct (@special_splits_word U HU a p b _ Hwa Hwb Hane Hbne Hpw Hps Hin)
    as [Hina Hinb].
  split; intros Hc; apply (kept_word_in_result HU); try exact Hc.
  - exact Hina.
  - apply (lower_plain HU), word_chars_plain; exact Ha.
  - exact Hinb.
  - apply (lower_plain HU), word_chars_plain; exact Hb.
Qed.

Lemma special_character_splits_word_witness :
  In (py "jaeger")
     (split ucd_excerpt
            (normalize ucd_excerpt (py "Jaeger-LeCoultre Master Control") (py "standard")))
  /\ In (py "lecoultre")
        (split ucd_excerpt
               (normalize ucd_excerpt (py "Jaeger-LeCoultre Master Control") (py "standard"))).
Proof.
  assert (Hw : In (py "Jaeger-LeCoultre")
                  (split ucd_excerpt (py "Jaeger-LeCoultre Master Control")))
    by (vm_compute; auto).
  assert (Hl : lower ucd_excerpt (py "Jaeger-LeCoultre")
               = py "jaeger" ++ 45%N :: py "lecoultre")
    by (vm_compute; reflexivity).
  assert (Ha : Forall (fun c => word_char c = true) (py "jaeger"))
    by (vm_compute; repeat constructor).
  assert (Hb : Forall (fun c => word_char c = true) (py "lecoultre"))
    by (vm_compute; repeat constructor).
  assert (Hane : py "jaeger" <> []) by discriminate.
  assert (Hbne : py "lecoultre" <> []) by discriminate.
  assert (Hd : 45%N <> dot) by discriminate.
  pose proof (@special_character_splits_word ucd_excerpt
                (py "Jaeger-LeCoultre Master Control") (py "Jaeger-LeCoultre")
                (py "jaeger") (py "lecoultre") 45%N excerpt_facts
                Hw Hl Hane Ha Hbne Hb eq_refl eq_refl eq_refl Hd) as [H1 H2].
  split; [exact (H1 eq_refl) | exact (H2 eq_refl)].
Defined.
